(** * Contract pipeline ([contract.py]): normaliser, clause locator, LLM gateway,
      summariser and batch driver, embedded as Rocq functions.

    A Python [str] is a sequence of Unicode code points; it is modelled as
    [list N].  The character classes the program relies on ([str.isspace],
    the regex classes [\s] and [\d], literals under [re.IGNORECASE]) are the
    tables of CPython 3.11 (Unicode 14.0). *)

From Stdlib Require Import String Ascii DecimalString.
From Stdlib Require Import List NArith Arith Bool Lia.
From Stdlib Require Import Sorting.Permutation Sorting.Sorted.
Import ListNotations.

Set Implicit Arguments.

(* ================================================================== *)
(** * Strings *)

Definition str := list N.

(** Code points of an ASCII literal. *)
Definition lit (s : string) : str := map N_of_ascii (list_ascii_of_string s).

Definition CR : N := 13.
Definition LF : N := 10.
Definition TAB : N := 9.
Definition SP : N := 32.
Definition DQUOTE : N := 34.

(** [s[:n]] *)
Definition slice_to (n : nat) (s : str) : str := firstn n s.

Definition in_ranges (rs : list (N * N)) (c : N) : bool :=
  existsb (fun r => (fst r <=? c)%N && (c <=? snd r)%N) rs.

(** [str.isspace] on one character; also the regex class [\s] of a [str]
    pattern. *)
Definition whitespace_ranges : list (N * N) :=
  [ (0x9, 0xD); (0x1C, 0x20); (0x85, 0x85); (0xA0, 0xA0); (0x1680, 0x1680);
    (0x2000, 0x200A); (0x2028, 0x2029); (0x202F, 0x202F); (0x205F, 0x205F);
    (0x3000, 0x3000) ]%N.

Definition isspace (c : N) : bool := in_ranges whitespace_ranges c.

(** The regex class [\d] of a [str] pattern: general category Nd. *)
Definition decimal_ranges : list (N * N) :=
  [ (0x30, 0x39); (0x660, 0x669); (0x6F0, 0x6F9); (0x7C0, 0x7C9);
    (0x966, 0x96F); (0x9E6, 0x9EF); (0xA66, 0xA6F); (0xAE6, 0xAEF);
    (0xB66, 0xB6F); (0xBE6, 0xBEF); (0xC66, 0xC6F); (0xCE6, 0xCEF);
    (0xD66, 0xD6F); (0xDE6, 0xDEF); (0xE50, 0xE59); (0xED0, 0xED9);
    (0xF20, 0xF29); (0x1040, 0x1049); (0x1090, 0x1099); (0x17E0, 0x17E9);
    (0x1810, 0x1819); (0x1946, 0x194F); (0x19D0, 0x19D9); (0x1A80, 0x1A89);
    (0x1A90, 0x1A99); (0x1B50, 0x1B59); (0x1BB0, 0x1BB9); (0x1C40, 0x1C49);
    (0x1C50, 0x1C59); (0xA620, 0xA629); (0xA8D0, 0xA8D9); (0xA900, 0xA909);
    (0xA9D0, 0xA9D9); (0xA9F0, 0xA9F9); (0xAA50, 0xAA59); (0xABF0, 0xABF9);
    (0xFF10, 0xFF19); (0x104A0, 0x104A9); (0x10D30, 0x10D39);
    (0x11066, 0x1106F); (0x110F0, 0x110F9); (0x11136, 0x1113F);
    (0x111D0, 0x111D9); (0x112F0, 0x112F9); (0x11450, 0x11459);
    (0x114D0, 0x114D9); (0x11650, 0x11659); (0x116C0, 0x116C9);
    (0x11730, 0x11739); (0x118E0, 0x118E9); (0x11950, 0x11959);
    (0x11C50, 0x11C59); (0x11D50, 0x11D59); (0x11DA0, 0x11DA9);
    (0x16A60, 0x16A69); (0x16AC0, 0x16AC9); (0x16B50, 0x16B59);
    (0x1D7CE, 0x1D7FF); (0x1E140, 0x1E149); (0x1E2F0, 0x1E2F9);
    (0x1E950, 0x1E959); (0x1FBF0, 0x1FBF9) ]%N.

Definition isdecimal (c : N) : bool := in_ranges decimal_ranges c.

Definition is_ascii (c : N) : bool := (c <? 128)%N.
Definition is_ascii_upper (c : N) : bool := (0x41 <=? c)%N && (c <=? 0x5A)%N.
Definition is_ascii_lower (c : N) : bool := (0x61 <=? c)%N && (c <=? 0x7A)%N.

Definition ascii_tolower (c : N) : N :=
  if is_ascii_upper c then (c + 32)%N else c.

(** A literal ASCII pattern character [p] against a text character [c] under
    [re.IGNORECASE]: the pattern character is lower-cased when the pattern is
    compiled; the text character matches when its simple lower case is that
    letter or when it is one of the engine's extra equivalents of it
    (dotless and dotted capital I for [i], the Kelvin sign for [k], long s
    for [s]). *)
Definition ignorecase_extra (lo c : N) : bool :=
  ((lo =? 0x69) && ((c =? 0x130) || (c =? 0x131)) ||
   (lo =? 0x6B) && (c =? 0x212A) ||
   (lo =? 0x73) && (c =? 0x17F))%N.

Definition ignorecase_eq (p c : N) : bool :=
  let lo := ascii_tolower p in
  (c =? lo)%N || (is_ascii_lower lo && (c + 32 =? lo)%N) || ignorecase_extra lo c.

(* ================================================================== *)
(** * Left-to-right substitution

    [str.replace] and [re.sub] share one scan: at each position the matcher
    [m] is tried on the rest of the text; a match of [n > 0] characters is
    replaced by [repl] and the scan resumes after it, otherwise the character
    is copied.  [skip] counts the characters of the current match that are
    still to be dropped.  (No pattern of this program matches the empty
    string, so the empty-match rule of [re.sub] never applies.) *)

Fixpoint scan_sub (m : str -> option nat) (repl : str) (skip : nat) (s : str)
  : str :=
  match s with
  | [] => []
  | c :: s' =>
      match skip with
      | S k => scan_sub m repl k s'
      | O =>
          match m s with
          | Some (S n) => repl ++ scan_sub m repl n s'
          | _ => c :: scan_sub m repl 0 s'
          end
      end
  end.

Fixpoint startswith (old s : str) : bool :=
  match old, s with
  | [], _ => true
  | a :: old', b :: s' => (a =? b)%N && startswith old' s'
  | _ :: _, [] => false
  end.

(** [s.replace(old, new)] for a non-empty [old]. *)
Definition replace (old new s : str) : str :=
  scan_sub (fun t => if startswith old t then Some (length old) else None)
           new 0 s.

(** [s.lstrip()], [s.rstrip()], [s.strip()] *)
Fixpoint lstrip (s : str) : str :=
  match s with
  | c :: s' => if isspace c then lstrip s' else s
  | [] => []
  end.

Definition rstrip (s : str) : str := rev (lstrip (rev s)).

Definition strip (s : str) : str := rstrip (lstrip s).

(* ================================================================== *)
(** * The regular expressions of the program

    Every pattern in [contract.py] is a sequence of single-character classes,
    each under a greedy quantifier; there is no alternation and no nested
    group.  A pattern is a list of such items and is matched as [re] does it:
    each item first takes as many characters as it can and gives them back one
    at a time while the rest of the pattern fails. *)

Record item := Item { cls : N -> bool; rmin : nat; rmax : option nat }.

Definition regex := list item.

Definition once (p : N -> bool) : item := Item p 1 (Some 1).
Definition plus (p : N -> bool) : item := Item p 1 None.
Definition at_least (n : nat) (p : N -> bool) : item := Item p n None.
Definition between (lo hi : nat) (p : N -> bool) : item := Item p lo (Some hi).

(** Character classes. *)
Definition chr_is (p : N) : N -> bool := fun c => (c =? p)%N.
Definition chr_ignorecase (p : N) : N -> bool := ignorecase_eq p.
Definition cls_any : N -> bool := fun c => isspace c || negb (isspace c).
Definition cls_hspace : N -> bool := fun c => (c =? SP)%N || (c =? TAB)%N.

(** A literal word, with or without [re.IGNORECASE]. *)
Definition word (w : str) : regex := map (fun p => once (chr_is p)) w.
Definition word_ignorecase (w : str) : regex :=
  map (fun p => once (chr_ignorecase p)) w.

(** Length of the run of [p]-characters at the head of [s]. *)
Fixpoint run (p : N -> bool) (s : str) : nat :=
  match s with
  | c :: s' => if p c then S (run p s') else 0
  | [] => 0
  end.

Definition greedy_count (it : item) (s : str) : nat :=
  match rmax it with
  | Some hi => Nat.min (run (cls it) s) hi
  | None => run (cls it) s
  end.

(** Try the continuation [k] after [n], [n-1], ..., [lo] characters. *)
Fixpoint backtrack (k : nat -> option nat) (lo n : nat) : option nat :=
  if n <? lo then None
  else match k n with
       | Some m => Some (n + m)
       | None => match n with
                 | O => None
                 | S n' => backtrack k lo n'
                 end
       end.

(** Match [r] at the head of [s]; the result is the length of the match. *)
Fixpoint match_here (r : regex) (s : str) : option nat :=
  match r with
  | [] => Some 0
  | it :: r' =>
      backtrack (fun n => match_here r' (skipn n s)) (rmin it)
                (greedy_count it s)
  end.

(** [re.search(r, s)]: start and length of the leftmost match. *)
Fixpoint re_search (r : regex) (s : str) : option (nat * nat) :=
  match match_here r s with
  | Some n => Some (0, n)
  | None =>
      match s with
      | [] => None
      | _ :: s' =>
          match re_search r s' with
          | Some (i, n) => Some (S i, n)
          | None => None
          end
      end
  end.

(** [re.sub(r, repl, s)] *)
Definition re_sub (r : regex) (repl s : str) : str :=
  scan_sub (match_here r) repl 0 s.

(** [r"[ \t]+"] *)
Definition re_hspace : regex := [plus cls_hspace].

(** [r"\n{3,}"] *)
Definition re_blank_lines : regex := [at_least 3 (chr_is LF)].

(** [r"Page\s+\d+\s+of\s+\d+"] with [re.IGNORECASE] *)
Definition re_page_footer : regex :=
  word_ignorecase (lit "Page") ++ [plus isspace; plus isdecimal; plus isspace]
  ++ word_ignorecase (lit "of") ++ [plus isspace; plus isdecimal].

(* ================================================================== *)
(** * Text normaliser *)

Definition normalize_text (txt : str) : str :=
  let txt := replace [CR] [LF] (replace [CR; LF] [LF] txt) in
  let txt := re_sub re_hspace [SP] txt in
  let txt := re_sub re_blank_lines [LF; LF] txt in
  let txt := re_sub re_page_footer [] txt in
  strip txt.

(* ================================================================== *)
(** * Effects

    The program prints, calls the LLM service, reads PDF files and writes its
    output files.  A computation takes the state of these and returns a value
    or raises, together with the new state; what was printed or sent before
    an exception stays.  An exception is represented by its [str(e)]; the
    handlers of the program are all [except Exception]. *)

Definition exc := str.

Inductive result (A : Type) : Type :=
| Ok (a : A)
| Raise (e : exc).

Arguments Ok {A} a.
Arguments Raise {A} e.

(** One chat request, as [call_groq] builds it. *)
Record request := Request {
  model : str;
  messages : list (str * str);   (* role, content *)
  temperature : N;
  max_tokens : nat
}.

(** A response: for each choice, its [message.content] ([None] when the
    service sent none). *)
Definition response := list (option str).

(** A record of the output: a [dict] keeps the order its keys were inserted
    in.  A value is [None] for Python's [None]. *)
Definition record := list (str * option str).

(** What a file holds once the program is done with it: the JSON text of
    the records, their CSV text, or only a beginning of the text of the
    records, the writing having raised on the way. *)
Inductive artifact : Type :=
| JsonFile (rows : list record)
| CsvFile (rows : list record)
| CutShort (rows : list record).

(** A code point the [utf8] codec refuses: a surrogate. *)
Definition is_surrogate (c : N) : bool :=
  (0xD800 <=? c)%N && (c <=? 0xDFFF)%N.

(** The strings of the records in the order they are written in: row by
    row, each key before its value; [None] is written as [null] and holds
    no string. *)
Definition strings_of (rows : list record) : list str :=
  flat_map
    (flat_map (fun kv : str * option str =>
                 fst kv :: match snd kv with Some v => [v] | None => [] end))
    rows.

(** The first string of the records that the [utf8] codec refuses. *)
Definition first_unencodable (rows : list record) : option str :=
  find (existsb is_surrogate) (strings_of rows).

Record Path := mkPath { parent : str; name : str }.

Record state := State {
  stdout : list str;                 (* lines printed *)
  sent : list request;               (* requests made to the service *)
  written : list (str * artifact)    (* files written, in order *)
}.

Definition M (A : Type) : Type := state -> result A * state.

Definition ret {A} (a : A) : M A := fun st => (Ok a, st).

Definition raise {A} (e : exc) : M A := fun st => (Raise e, st).

Definition bind {A B} (m : M A) (k : A -> M B) : M B :=
  fun st =>
    match m st with
    | (Ok a, st') => k a st'
    | (Raise e, st') => (Raise e, st')
    end.

(** [try: m except Exception as e: h e] *)
Definition try_except {A} (m : M A) (h : exc -> M A) : M A :=
  fun st =>
    match m st with
    | (Ok a, st') => (Ok a, st')
    | (Raise e, st') => h e st'
    end.

Declare Scope py_scope.
Delimit Scope py_scope with py.
Notation "x <- m ;; k" := (bind m (fun x => k))
  (at level 61, m at next level, right associativity) : py_scope.
Notation "m ;;; k" := (bind m (fun _ => k))
  (at level 61, right associativity) : py_scope.
Open Scope py_scope.

(** [print(line)], on a console that takes every line (a UTF-8 console
    whose error handler lets surrogates through). *)
Definition print (line : str) : M unit :=
  fun st => (Ok tt, State (stdout st ++ [line]) (sent st) (written st)).

(** [str(n)] of a non-negative [int]. *)
Definition str_of_nat (n : nat) : str :=
  lit (NilEmpty.string_of_uint (Nat.to_uint n)).

(** [sep.join(parts)] *)
Fixpoint join (sep : str) (parts : list str) : str :=
  match parts with
  | [] => []
  | [p] => p
  | p :: rest => p ++ sep ++ join sep rest
  end.

(** Equality and order of [str]: by code points, a proper prefix first. *)
Fixpoint str_eqb (a b : str) : bool :=
  match a, b with
  | [], [] => true
  | x :: a', y :: b' => (x =? y)%N && str_eqb a' b'
  | _, _ => false
  end.

Fixpoint str_leb (a b : str) : bool :=
  match a, b with
  | [], _ => true
  | _ :: _, [] => false
  | x :: a', y :: b' => (x <? y)%N || ((x =? y)%N && str_leb a' b')
  end.

(** [d.get(k)] on a [dict] written as a list of its items. *)
Fixpoint dict_get {V : Type} (d : list (str * V)) (k : str) : option V :=
  match d with
  | [] => None
  | (k', v) :: d' => if str_eqb k' k then Some v else dict_get d' k
  end.

(** [sorted] on paths of one directory, which compare by name. *)
Fixpoint insert_sorted (p : Path) (l : list Path) : list Path :=
  match l with
  | [] => [p]
  | q :: l' => if str_leb (name p) (name q) then p :: l
               else q :: insert_sorted p l'
  end.

Definition sorted (l : list Path) : list Path :=
  fold_right insert_sorted [] l.

(** [s.rfind(c)] *)
Fixpoint rfind (c : N) (s : str) : option nat :=
  match s with
  | [] => None
  | x :: s' =>
      match rfind c s' with
      | Some i => Some (S i)
      | None => if (x =? c)%N then Some 0 else None
      end
  end.

(** [PurePath.stem]: the name without its last suffix; a name that only
    starts or only ends with a dot has no suffix. *)
Definition stem (p : Path) : str :=
  match rfind 0x2E (name p) with
  | Some i => if (0 <? i) && (i <? length (name p) - 1)
              then firstn i (name p) else name p
  | None => name p
  end.

(* ================================================================== *)
(** * A small world to run the program in

    A directory with three files, of which [b.pdf] cannot be opened; a
    service that answers, and one that is down; a file system that lets every
    file be written; no lower-casing beyond ASCII. *)

Definition ascii_only_lower : str -> str := fun s => s.

Definition service_up : list request -> request -> result response :=
  fun _ _ => Ok [Some ([SP] ++ lit "Either party may terminate." ++ [LF])].

Definition service_off : list request -> request -> result response :=
  fun _ _ => Raise (lit "rate limit exceeded").

Definition three_files : str -> list str :=
  fun _ => [lit "c.pdf"; lit "a.pdf"; lit "b.pdf"].

Definition open_three (p : Path) : result (list (result (option str))) :=
  if str_eqb (name p) (lit "b.pdf") then Raise (lit "No /Root object!")
  else Ok [Ok (Some (lit "This Agreement's termination date is final."));
           Ok None].

Definition all_writable : str -> option exc := fun _ => None.

(** The error of the codec at the one string with a surrogate the examples
    have, where the surrogate is the first character. *)
Definition surrogates_refused : str -> exc :=
  fun _ => lit "'utf-8' codec can't encode character '\udc80' in position 1: "
           ++ lit "surrogates not allowed".

Definition initial : state := State [] [] [].

(** A document whose second page cannot be read, a directory without file,
    and file systems that refuse one of the output files. *)
Definition open_torn (p : Path) : result (list (result (option str))) :=
  Ok [Ok (Some (lit "Page one")); Raise (lit "bad xref"); Ok (Some (lit "Page three"))].

Definition no_files : str -> list str := fun _ => [].

(** A directory with a file whose name holds a surrogate, as a name that is
    not valid UTF-8 reaches the program. *)
Definition odd_files : str -> list str :=
  fun _ => [lit "a.pdf"; lit "b.pdf"; [0xDC80%N] ++ lit ".pdf"].

Definition json_locked (path : str) : option exc :=
  if str_eqb path (lit "out.json") then Some (lit "Permission denied")
  else None.

Definition csv_locked (path : str) : option exc :=
  if str_eqb path (lit "out.csv") then Some (lit "Permission denied")
  else None.

(** The document of the locator's example. *)
Definition agreement : str :=
  lit "This Agreement's termination date is final.".

(* ================================================================== *)
(** * The program *)

Section Program.

(** What the program does not contain: the Unicode lower-casing of a string
    that has a non-ASCII character (CPython lower-cases an ASCII string byte
    by byte and goes through the Unicode tables otherwise), the LLM service
    (its reply to a request, given the requests made before), the PDF reader
    (an exception, or for each page what [extract_text] does: an exception,
    [None], or the text), the directory listing behind [glob("*.pdf")],
    whether a file can be opened for writing, and the [UnicodeEncodeError]
    the [utf8] codec raises on a string that holds a surrogate. *)
Variable unicode_lower : str -> str.
Variable llm_service : list request -> request -> result response.
Variable pdfplumber_open : Path -> result (list (result (option str))).
Variable glob_pdf : str -> list str.
Variable open_w : str -> option exc.
Variable encode_error : str -> exc.

(** [s.lower()] *)
Definition lower (s : str) : str :=
  if forallb is_ascii s then map ascii_tolower s else unicode_lower s.

(** ** PDF to text *)

Fixpoint extract_pages (pages : list (result (option str))) (text_parts : list str)
  : M (list str) :=
  match pages with
  | [] => ret text_parts
  | page :: rest =>
      match page with
      | Raise e => raise e
      | Ok extracted =>
          let text := match extracted with
                      | Some ((_ :: _) as t) => t
                      | _ => []                  (* [... or ""] *)
                      end in
          extract_pages rest (text_parts ++ [text])
      end
  end.

Definition extract_text_from_pdf (path : Path) : M str :=
  match pdfplumber_open path with
  | Raise e => raise e
  | Ok pages =>
      text_parts <- extract_pages pages [] ;;
      ret (join [LF; LF] text_parts)
  end.

(** ** LLM gateway *)

Definition chat_completions_create (req : request) : M response :=
  fun st =>
    (llm_service (sent st) req,
     State (stdout st) (sent st ++ [req]) (written st)).

Definition IndexError : exc := lit "list index out of range".
Definition AttributeError : exc :=
  lit "'NoneType' object has no attribute 'strip'".

Definition call_groq (system_prompt user_prompt : str) (max_tokens : nat)
  : M str :=
  try_except
    (resp <- chat_completions_create
               (Request (lit "llama-3.1-8b-instant")
                        [(lit "system", system_prompt);
                         (lit "user", user_prompt)]
                        0 max_tokens) ;;
     match resp with
     | [] => raise IndexError                       (* [resp.choices[0]] *)
     | None :: _ => raise AttributeError            (* [None.strip()] *)
     | Some content :: _ => ret (strip content)
     end)
    (fun e => print (lit "Groq Error: " ++ e) ;;; ret []).

(** ** Clause locator *)

Definition patterns : list (str * regex) :=
  [ (lit "termination",
     word_ignorecase (lit "termination") ++ [between 0 1800 cls_any]);
    (lit "confidentiality",
     word_ignorecase (lit "confidential") ++ [between 0 1800 cls_any]);
    (lit "liability",
     word_ignorecase (lit "liabilit") ++ [between 0 1800 cls_any]) ].

(** The group of each pattern spans the whole pattern, so [match.group(1)]
    is the matched text. *)
Definition find_relevant_section (text clause_type : str) : str :=
  match dict_get patterns (lower clause_type) with
  | Some pattern =>
      match re_search pattern text with
      | Some (i, n) => firstn n (skipn i text)
      | None => slice_to 2000 text
      end
  | None => slice_to 2000 text
  end.

(** ** Clause extraction *)

Definition CLAUSE_SYSTEM_PROMPT : str :=
  lit "You are a legal contract clause extractor. "
  ++ lit "Return ONLY the exact clause text, verbatim, as it appears in the contract. "
  ++ lit "If not found, return an empty string. Do not paraphrase.".

Definition extract_clause (full_text clause_type : str) : M str :=
  let filtered := find_relevant_section full_text clause_type in
  let user_prompt :=
    [LF] ++ lit "Extract the " ++ clause_type
    ++ lit " clause verbatim from the text below." ++ [LF]
    ++ lit "Return ONLY the original clause text. No explanation." ++ [LF; LF]
    ++ lit "Text:" ++ [LF]
    ++ [DQUOTE; DQUOTE; DQUOTE] ++ filtered ++ [DQUOTE; DQUOTE; DQUOTE] ++ [LF] in
  call_groq CLAUSE_SYSTEM_PROMPT user_prompt 800.

(** ** Summary *)

Definition EN_DASH : N := 0x2013.

Definition SUMMARY_SYSTEM_PROMPT : str :=
  lit "You are an expert legal summarizer. "
  ++ lit "Write a 100" ++ [EN_DASH]
  ++ lit "150 word summary including: purpose, obligations, risks.".

Definition summarize_contract (full_text : str) : M str :=
  let short := slice_to 5000 full_text in
  let user_prompt :=
    [LF] ++ lit "Write a clear 100" ++ [EN_DASH]
    ++ lit "150 word summary including purpose, both parties' obligations, and risks."
    ++ [LF; LF] ++ lit "Contract:" ++ [LF]
    ++ [DQUOTE; DQUOTE; DQUOTE] ++ short ++ [DQUOTE; DQUOTE; DQUOTE] ++ [LF] in
  call_groq SUMMARY_SYSTEM_PROMPT user_prompt 400.

(** ** One contract *)

Definition process_contract (pdf_path : Path) : M record :=
  let contract_id := stem pdf_path in
  raw <- extract_text_from_pdf pdf_path ;;
  let full_text := normalize_text raw in
  termination <- extract_clause full_text (lit "termination") ;;
  confidentiality <- extract_clause full_text (lit "confidentiality") ;;
  liability <- extract_clause full_text (lit "liability") ;;
  summary <- summarize_contract full_text ;;
  ret [ (lit "contract_id", Some contract_id);
        (lit "summary", Some summary);
        (lit "termination", Some termination);
        (lit "confidentiality", Some confidentiality);
        (lit "liability", Some liability) ].

(** ** Command-line entry *)

(** The [for] loop of [main] over the sorted paths, [rows] being the list it
    appends to.  (The progress bar of [tqdm] goes to the standard error and
    is left out.) *)
Fixpoint main_loop (pdfs : list Path) (rows : list record) : M (list record) :=
  match pdfs with
  | [] => ret rows
  | pdf :: rest =>
      rows' <- try_except
                 (r <- process_contract pdf ;; ret (rows ++ [r]))
                 (fun e =>
                    print (lit "Error processing " ++ name pdf ++ lit ": " ++ e) ;;;
                    ret rows) ;;
      main_loop rest rows'
  end.

(** [with open(path, "w", encoding="utf8") as f: json.dump(rows, f, ...)]
    and [pd.DataFrame(rows).to_csv(path, ...)], [whole] being the file a
    complete writing leaves: opening may raise; once the file is open the
    records are written string by string, and the first string that holds
    a surrogate makes the codec raise, the file keeping what was written
    before it.  (In [main] the CSV file comes after the JSON file took the
    same records, so there only its opening can fail; what the codec
    would report on a line of CSV is not told apart.) *)
Definition write_file (path : str) (whole : list record -> artifact)
    (rows : list record) : M unit :=
  fun st =>
    match open_w path with
    | Some e => (Raise e, st)
    | None =>
      match first_unencodable rows with
      | Some s =>
        (Raise (encode_error s),
         State (stdout st) (sent st) (written st ++ [(path, CutShort rows)]))
      | None =>
        (Ok tt,
         State (stdout st) (sent st) (written st ++ [(path, whole rows)]))
      end
    end.

Definition main (input_dir out_json : str) (out_csv : option str) : M unit :=
  let pdfs := sorted (map (mkPath input_dir) (glob_pdf input_dir)) in
  rows <- main_loop pdfs [] ;;
  write_file out_json JsonFile rows ;;;
  match out_csv with
  | Some ((_ :: _) as p) => write_file p CsvFile rows       (* [if out_csv:] *)
  | _ => ret tt
  end ;;;
  print ([0x1F389%N] ++ lit " Done! Processed " ++ str_of_nat (length rows)
         ++ lit " PDFs " ++ [0x2192%N; SP] ++ out_json).

(* ================================================================== *)
(** * Vocabulary of the properties *)

(** [w in s]: [w] occurs in [s] as a contiguous run. *)
Fixpoint contains (w s : str) : bool :=
  startswith w s ||
  match s with
  | [] => false
  | _ :: s' => contains w s'
  end.

(** The words of a pattern: one run of characters per item, each character
    in the class of the item and the length of the run within its bounds. *)
Inductive matches : regex -> str -> Prop :=
| matches_nil : matches [] []
| matches_cons (it : item) (r : regex) (w1 w2 : str) :
    forallb (cls it) w1 = true ->
    rmin it <= length w1 ->
    (forall hi, rmax it = Some hi -> length w1 <= hi) ->
    matches r w2 ->
    matches (it :: r) (w1 ++ w2).

(** The text with every run of white space as one space: what a pattern sees
    that tells white space only from the rest. *)
Fixpoint squeeze (s : str) : str :=
  match s with
  | [] => []
  | c :: s' =>
      if isspace c then
        match s' with
        | d :: _ => if isspace d then squeeze s' else SP :: squeeze s'
        | [] => [SP]
        end
      else c :: squeeze s'
  end.

Definition drop_space (s : str) : str :=
  match s with
  | c :: s' => if isspace c then s' else s
  | [] => []
  end.

(** The class of an item has no white space in it. *)
Definition solid (it : item) : Prop :=
  forall c, cls it c = true -> isspace c = false.

(** Patterns in which white space only occurs as [\s+] between two items
    that take at least one character that is not white space. *)
Inductive space_blind : regex -> Prop :=
| space_blind_nil : space_blind []
| space_blind_solid (it : item) (r : regex) :
    solid it -> space_blind r -> space_blind (it :: r)
| space_blind_space (it : item) (r : regex) :
    solid it -> 1 <= rmin it -> space_blind (it :: r) ->
    space_blind (plus isspace :: it :: r).

(** The text as the page-footer rule of [normalize_text] receives it: line
    endings unified, blanks and blank lines collapsed. *)
Definition before_footer_removal (txt : str) : str :=
  re_sub re_blank_lines [LF; LF]
    (re_sub re_hspace [SP]
       (replace [CR] [LF] (replace [CR; LF] [LF] txt))).

(** [m] spells the word [kw] up to the case rules of [re.IGNORECASE]. *)
Definition spells (kw m : str) : Prop :=
  Forall2 (fun p c => ignorecase_eq p c = true) kw m.

(** [kw] occurs, up to case, at offset [i] of [text]. *)
Definition occurs_at (kw text : str) (i : nat) : Prop :=
  exists m rest, skipn i text = m ++ rest /\ spells kw m.

Fixpoint startswith_ignorecase (kw s : str) : bool :=
  match kw, s with
  | [], _ => true
  | p :: kw', c :: s' => ignorecase_eq p c && startswith_ignorecase kw' s'
  | _ :: _, [] => false
  end.

(** Offset of the first occurrence of [kw], up to case, in [s]. *)
Fixpoint find_ignorecase (kw s : str) : option nat :=
  if startswith_ignorecase kw s then Some 0
  else match s with
       | [] => None
       | _ :: s' => option_map S (find_ignorecase kw s')
       end.

(** Clause types and their anchor words. *)
Definition anchors : list (str * str) :=
  [ (lit "termination", lit "termination");
    (lit "confidentiality", lit "confidential");
    (lit "liability", lit "liabilit") ].

Definition supported : list str := map fst anchors.

(** The locator in the words of its description: from the first occurrence
    of the anchor word, the word and the 1800 characters after it at most;
    the first 2000 characters of the text when the word does not occur. *)
Definition locate_spec (kw text : str) : str :=
  match find_ignorecase kw text with
  | Some i => firstn (length kw + 1800) (skipn i text)
  | None => firstn 2000 text
  end.

(** [out] is [s] without the white space at its two ends. *)
Definition trimmed_of (s out : str) : Prop :=
  exists a b, s = a ++ out ++ b /\
              forallb isspace a = true /\ forallb isspace b = true /\
              run isspace out = 0 /\ run isspace (rev out) = 0.

(** The request [call_groq] sends. *)
Definition groq_request (system_prompt user_prompt : str) (max_tokens : nat)
  : request :=
  Request (lit "llama-3.1-8b-instant")
          [(lit "system", system_prompt); (lit "user", user_prompt)]
          0 max_tokens.

(** The underlying call failed: the service raised, or its response has no
    first choice or no content in it. *)
Definition call_failed (reply : result response) : bool :=
  match reply with
  | Ok (Some _ :: _) => false
  | _ => true
  end.

(** Every call to the service fails. *)
Definition service_down : Prop :=
  forall history req, call_failed (llm_service history req) = true.

(** The PDF can be opened and every page of it read. *)
Definition readable (p : Path) : bool :=
  match pdfplumber_open p with
  | Ok pages =>
      forallb (fun page => match page with Ok _ => true | Raise _ => false end)
              pages
  | Raise _ => false
  end.

(** The keys of a record, in their order. *)
Definition record_keys : list str :=
  [ lit "contract_id"; lit "summary"; lit "termination";
    lit "confidentiality"; lit "liability" ].

(** [r] is a complete record of the document [p]: the five keys in order,
    the identifier of [p], a string under every key. *)
Definition record_of (p : Path) (r : record) : Prop :=
  map fst r = record_keys /\
  dict_get r (lit "contract_id") = Some (Some (stem p)) /\
  Forall (fun kv => snd kv <> None) r.

(** The record of [p] when no clause and no summary was obtained. *)
Definition empty_record (p : Path) : record :=
  [ (lit "contract_id", Some (stem p));
    (lit "summary", Some []);
    (lit "termination", Some []);
    (lit "confidentiality", Some []);
    (lit "liability", Some []) ].

(** The order of [sorted]: by name. *)
Definition name_le (p q : Path) : Prop := str_leb (name p) (name q) = true.

(** The files [main] writes after its loop, [rows] being the records. *)
Definition outputs (out_json : str) (out_csv : option str) (rows : list record)
  : list (str * artifact) :=
  (out_json, JsonFile rows) ::
  match out_csv with
  | Some ((_ :: _) as p) => [(p, CsvFile rows)]
  | _ => []
  end.

(** The documents of a directory in the order [main] processes them. *)
Definition documents (input_dir : str) : list Path :=
  sorted (map (mkPath input_dir) (glob_pdf input_dir)).

(** The records the loop of [main] has collected when it ends, the program
    having started in the state [st]. *)
Definition batch_rows (input_dir : str) (st : state) : list record :=
  match fst (main_loop (documents input_dir) [] st) with
  | Ok rows => rows
  | Raise _ => []
  end.

(** Every answer of the service is free of surrogates. *)
Definition service_clean : Prop :=
  forall history req content others,
    llm_service history req = Ok (Some content :: others) ->
    existsb is_surrogate content = false.

(** No string of the records holds a surrogate: the [utf8] codec writes
    them all. *)
Definition encodable (rows : list record) : bool :=
  match first_unencodable rows with
  | Some _ => false
  | None => true
  end.

(** [s.find(w)]: the offset of the first occurrence of [w] in [s], read
    letter for letter. *)
Fixpoint find_exact (w s : str) : option nat :=
  if startswith w s then Some 0
  else match s with
       | [] => None
       | _ :: s' => option_map S (find_exact w s')
       end.

(** The letter [c] of a text reads as the lower-case letter [p] whatever
    its case: [c] is [p] or its capital, or, for [i], one of the two
    letters Unicode folds to it. *)
Definition same_letter (p c : N) : Prop :=
  ascii_tolower c = p \/
  (p = 0x69%N /\ (c = 0x130%N \/ c = 0x131%N)).

(** A letter of the anchor words: a lower-case ASCII letter other than [k]
    and [s]. *)
Definition plain_letter (p : N) : bool :=
  is_ascii_lower p && negb (p =? 0x6B)%N && negb (p =? 0x73)%N.

(** The locator of the specification on a text of ASCII letters: lower the
    text, look the keyword up in it letter for letter, and cut the text
    there. *)
Definition locate_lowered (kw text : str) : str :=
  match find_exact kw (map ascii_tolower text) with
  | Some i => firstn (length kw + 1800) (skipn i text)
  | None => firstn 2000 text
  end.

(** The user prompt of the summariser around the excerpt [short]. *)
Definition summary_prompt (short : str) : str :=
  [LF] ++ lit "Write a clear 100" ++ [EN_DASH]
  ++ lit "150 word summary including purpose, both parties' obligations, and risks."
  ++ [LF; LF] ++ lit "Contract:" ++ [LF]
  ++ [DQUOTE; DQUOTE; DQUOTE] ++ short ++ [DQUOTE; DQUOTE; DQUOTE] ++ [LF].

(* ================================================================== *)
(** * Vocabulary of the further properties *)

(** What a page contributes to the text: its text, nothing when it has
    none. *)
Definition page_text (page : result (option str)) : str :=
  match page with
  | Ok (Some t) => t
  | _ => []
  end.

(** The exception of the first page that cannot be read. *)
Fixpoint first_error (pages : list (result (option str))) : option exc :=
  match pages with
  | [] => None
  | Raise e :: _ => Some e
  | Ok _ :: rest => first_error rest
  end.

(** The text of a document, or the exception of its reading. *)
Definition document_text (p : Path) : result str :=
  match pdfplumber_open p with
  | Raise e => Raise e
  | Ok pages =>
      match first_error pages with
      | Some e => Raise e
      | None => Ok (join [LF; LF] (map page_text pages))
      end
  end.

(** The user prompt of the clause extractor around the window. *)
Definition clause_prompt (window clause_type : str) : str :=
  [LF] ++ lit "Extract the " ++ clause_type
  ++ lit " clause verbatim from the text below." ++ [LF]
  ++ lit "Return ONLY the original clause text. No explanation." ++ [LF; LF]
  ++ lit "Text:" ++ [LF]
  ++ [DQUOTE; DQUOTE; DQUOTE] ++ window ++ [DQUOTE; DQUOTE; DQUOTE] ++ [LF].

Definition clause_request (full_text clause_type : str) : request :=
  groq_request CLAUSE_SYSTEM_PROMPT
    (clause_prompt (find_relevant_section full_text clause_type) clause_type)
    800.

Definition summary_request (full_text : str) : request :=
  groq_request SUMMARY_SYSTEM_PROMPT (summary_prompt (firstn 5000 full_text))
    400.

(** The requests one document gives rise to. *)
Definition requests_of (p : Path) : list request :=
  match document_text p with
  | Ok raw =>
      let full_text := normalize_text raw in
      [ clause_request full_text (lit "termination");
        clause_request full_text (lit "confidentiality");
        clause_request full_text (lit "liability");
        summary_request full_text ]
  | Raise _ => []
  end.

(** A request of the shape and within the bounds the program keeps to. *)
Definition bounded_request (r : request) : Prop :=
  model r = lit "llama-3.1-8b-instant" /\
  temperature r = 0%N /\
  max_tokens r <= 800 /\
  exists system_prompt user_prompt,
    messages r = [(lit "system", system_prompt); (lit "user", user_prompt)] /\
    length user_prompt <= 5000 + 200.

(** The last line [main] prints. *)
Definition done_line (n : nat) (out_json : str) : str :=
  [0x1F389%N] ++ lit " Done! Processed " ++ str_of_nat n
  ++ lit " PDFs " ++ [0x2192%N; SP] ++ out_json.

(** The characters of a text that are not white space, in order. *)
Definition solid_chars (s : str) : str :=
  filter (fun c => negb (isspace c)) s.

(* ================================================================== *)
(** * Substitution scan: general facts *)

Lemma scan_sub_skip (m : str -> option nat) (repl : str) (k : nat) (s : str) :
  scan_sub m repl k s = scan_sub m repl 0 (skipn k s).
Proof.
  revert s; induction k as [|k IH]; intros [|c s]; simpl; auto.
Qed.

Lemma scan_sub_cons (m : str -> option nat) (repl : str) (c : N) (s : str) :
  scan_sub m repl 0 (c :: s) =
  match m (c :: s) with
  | Some (S n) => repl ++ scan_sub m repl 0 (skipn n s)
  | _ => c :: scan_sub m repl 0 s
  end.
Proof.
  simpl. destruct (m (c :: s)) as [[|n]|]; auto.
  now rewrite scan_sub_skip.
Qed.

(** Where the matcher finds nothing, the text is returned as it is. *)
Lemma scan_sub_id (m : str -> option nat) (repl s : str) :
  (forall i, m (skipn i s) = None) -> scan_sub m repl 0 s = s.
Proof.
  induction s as [|c s IH]; intros H; auto.
  rewrite scan_sub_cons. pose proof (H 0) as H0. simpl in H0. rewrite H0.
  f_equal. apply IH. intros i. apply (H (S i)).
Qed.

(** Every character of the result comes from the text or from [repl]. *)
Lemma scan_sub_Forall (P : N -> Prop) (m : str -> option nat) (repl : str) :
  Forall P repl ->
  forall s k, Forall P s -> Forall P (scan_sub m repl k s).
Proof.
  intros Hr. induction s as [|c s IH]; intros k Hs; simpl; auto.
  inversion Hs; subst.
  destruct k; auto.
  destruct (m (c :: s)) as [[|n]|]; auto.
  apply Forall_app; auto.
Qed.

(* ------------------------------------------------------------------ *)
(** * [contains], prefixes and runs *)

Lemma startswith_app (w a b : str) :
  startswith w a = true -> startswith w (a ++ b) = true.
Proof.
  revert a; induction w as [|x w IH]; intros [|y a]; simpl; auto; try discriminate.
  intros H. apply andb_true_iff in H as [H1 H2]. rewrite H1; simpl; auto.
Qed.

Lemma contains_cons (w : str) (c : N) (s : str) :
  contains w (c :: s) = startswith w (c :: s) || contains w s.
Proof. reflexivity. Qed.

Lemma contains_app_false (w a b : str) :
  contains w (a ++ b) = false -> contains w a = false /\ contains w b = false.
Proof.
  induction a as [|c a IH]; simpl app.
  - intros H. split; auto. destruct w; auto.
    simpl. destruct b; simpl in H; auto; discriminate.
  - rewrite !contains_cons. intros H. apply orb_false_iff in H as [H1 H2].
    destruct (IH H2) as [Ha Hb]. split; auto.
    rewrite Ha, orb_false_r.
    destruct (startswith w (c :: a)) eqn:E; auto.
    apply startswith_app with (b := b) in E. simpl app in E. congruence.
Qed.

Lemma contains_skipn_false (w s : str) (i : nat) :
  contains w s = false -> startswith w (skipn i s) = false.
Proof.
  revert s; induction i as [|i IH]; intros s H.
  - simpl. destruct s; simpl in H; apply orb_false_iff in H as [H _];
      exact H.
  - destruct s as [|c s].
    + simpl. simpl in H. apply orb_false_iff in H as [H _]. exact H.
    + simpl. apply IH. rewrite contains_cons in H.
      apply orb_false_iff in H as [_ H]. exact H.
Qed.

Lemma contains_single_Forall (x : N) (s : str) :
  contains [x] s = false <-> Forall (fun c => c <> x) s.
Proof.
  induction s as [|c s IH].
  - simpl. split; auto.
  - rewrite contains_cons. simpl startswith. rewrite andb_true_r, orb_false_iff.
    rewrite IH. split.
    + intros [H1 H2]. constructor; auto.
      apply N.eqb_neq in H1. congruence.
    + intros H. inversion H; subst. split; auto.
      apply N.eqb_neq. congruence.
Qed.

Lemma startswith_prefix (w s : str) :
  startswith w s = true <-> exists b, s = w ++ b.
Proof.
  revert s; induction w as [|x w IH]; intros s; simpl.
  - split; eauto.
  - destruct s as [|c s].
    + split; try discriminate. intros [b H]; discriminate.
    + rewrite andb_true_iff, N.eqb_eq, IH. split.
      * intros (-> & b & ->). eauto.
      * intros [b H]. inversion H; subst. eauto.
Qed.

(** [contains w s] is false exactly when [w] is no part of [s]. *)
Lemma contains_false_iff (w s : str) :
  contains w s = false <-> forall a b, s <> a ++ w ++ b.
Proof.
  induction s as [|c s IH].
  - simpl. rewrite orb_false_r. split.
    + intros H a b E. destruct a; [|discriminate]. simpl in E.
      assert (Hs : startswith w [] = true)
        by (apply startswith_prefix; eauto).
      congruence.
    + intros H. destruct (startswith w []) eqn:E; auto.
      apply startswith_prefix in E as [b E]. now apply (H [] b) in E.
  - rewrite contains_cons, orb_false_iff, IH. split.
    + intros [H1 H2] [|x a] b E.
      * assert (Hs : startswith w (c :: s) = true)
          by (apply startswith_prefix; eauto).
        congruence.
      * inversion E; subst. now apply (H2 a b).
    + intros H. split.
      * destruct (startswith w (c :: s)) eqn:E; auto.
        apply startswith_prefix in E as [b E]. now apply (H [] b) in E.
      * intros a b E. apply (H (c :: a) b). simpl. now f_equal.
Qed.

(* ------------------------------------------------------------------ *)
(** * The matcher *)

Lemma backtrack_found (k : nat -> option nat) (lo n total : nat) :
  backtrack k lo n = Some total ->
  exists j m, lo <= j <= n /\ k j = Some m /\ total = j + m.
Proof.
  induction n as [|n IH]; simpl.
  - destruct (Nat.ltb_spec 0 lo) as [Hlt|Hle]; try discriminate.
    destruct (k 0) as [m0|] eqn:E; try discriminate.
    intros H. exists 0, m0. injection H as H. repeat split; auto; lia.
  - destruct (Nat.ltb_spec (S n) lo) as [Hlt|Hle]; try discriminate.
    destruct (k (S n)) as [m0|] eqn:E.
    + intros H. exists (S n), m0. injection H as H. repeat split; auto; lia.
    + intros H. destruct (IH H) as (j & m & Hj & Hk & Ht).
      exists j, m. repeat split; auto; lia.
Qed.

Lemma backtrack_finds (k : nat -> option nat) (lo n j : nat) :
  lo <= j <= n -> k j <> None -> backtrack k lo n <> None.
Proof.
  induction n as [|n IH]; intros Hj Hk.
  - assert (j = 0) by lia. subst. simpl.
    destruct (Nat.ltb_spec 0 lo); try lia.
    destruct (k 0); congruence.
  - simpl. destruct (Nat.ltb_spec (S n) lo); try lia.
    destruct (k (S n)) eqn:E; try congruence.
    apply IH; auto.
    assert (j <> S n) by (intros ->; congruence). lia.
Qed.

Lemma backtrack_last (lo n : nat) :
  backtrack (fun _ => Some 0) lo n = if n <? lo then None else Some n.
Proof.
  destruct n; simpl; destruct (_ <? lo); auto; f_equal; lia.
Qed.

Lemma match_here_single (p : N -> bool) (lo : nat) (s : str) :
  match_here [Item p lo None] s =
  if run p s <? lo then None else Some (run p s).
Proof. unfold match_here, greedy_count. simpl. apply backtrack_last. Qed.

Lemma run_le_length (p : N -> bool) (s : str) : run p s <= length s.
Proof. induction s as [|c s IH]; simpl; auto. destruct (p c); simpl; lia. Qed.

Lemma run_app_le (p : N -> bool) (s u : str) : run p s <= run p (s ++ u).
Proof. induction s as [|c s IH]; simpl; try lia. destruct (p c); lia. Qed.

Lemma greedy_count_le_length (it : item) (s : str) :
  greedy_count it s <= length s.
Proof.
  unfold greedy_count. pose proof (run_le_length (cls it) s).
  destruct (rmax it); lia.
Qed.

Lemma greedy_count_app_le (it : item) (s u : str) :
  greedy_count it s <= greedy_count it (s ++ u).
Proof.
  unfold greedy_count. pose proof (run_app_le (cls it) s u).
  destruct (rmax it); lia.
Qed.

(** A match is inside the text. *)
Lemma match_here_le_length (r : regex) :
  forall s n, match_here r s = Some n -> n <= length s.
Proof.
  induction r as [|it r IH]; intros s n; simpl.
  - intros H; inversion H; lia.
  - intros H. apply backtrack_found in H as (j & m & Hj & Hk & ->).
    apply IH in Hk. rewrite length_skipn in Hk.
    pose proof (greedy_count_le_length it s). lia.
Qed.

(** A pattern that matches a text matches every extension of it. *)
Lemma match_here_app (r : regex) :
  forall s u, match_here r s <> None -> match_here r (s ++ u) <> None.
Proof.
  induction r as [|it r IH]; intros s u; simpl; try discriminate.
  intros H. destruct (backtrack _ _ (greedy_count it s)) as [t|] eqn:E;
    try congruence.
  apply backtrack_found in E as (j & m & Hj & Hk & _).
  apply backtrack_finds with (j := j).
  - pose proof (greedy_count_app_le it s u). lia.
  - pose proof (greedy_count_le_length it s).
    rewrite skipn_app. replace (j - length s) with 0 by lia. simpl skipn.
    apply IH. congruence.
Qed.

Lemma re_search_none (r : regex) (s : str) :
  re_search r s = None <-> forall i, match_here r (skipn i s) = None.
Proof.
  induction s as [|c s IH]; simpl.
  - destruct (match_here r []) eqn:E; split; try discriminate; auto.
    + intros H. specialize (H 0). simpl in H. congruence.
    + intros _ i. now rewrite skipn_nil.
  - destruct (match_here r (c :: s)) eqn:E.
    + split; try discriminate. intros H. specialize (H 0). simpl in H. congruence.
    + destruct (re_search r s) as [[i n]|] eqn:Es.
      * split; try discriminate. intros H.
        assert (Hs : forall i, match_here r (skipn i s) = None)
          by (intros j; apply (H (S j))).
        apply IH in Hs. discriminate.
      * split; auto. intros _ [|i]; simpl; auto.
        now apply IH.
Qed.

Lemma re_search_found (r : regex) (s : str) (i n : nat) :
  re_search r s = Some (i, n) ->
  match_here r (skipn i s) = Some n /\
  forall j, j < i -> match_here r (skipn j s) = None.
Proof.
  revert i; induction s as [|c s IH]; intros i; simpl.
  - destruct (match_here r []) eqn:E; try discriminate.
    intros H; inversion H; subst. split; auto. intros; lia.
  - destruct (match_here r (c :: s)) eqn:E.
    + intros H; inversion H; subst. split; auto. intros; lia.
    + destruct (re_search r s) as [[i' n']|] eqn:Es; try discriminate.
      intros H; inversion H; subst.
      destruct (IH i' eq_refl) as [H1 H2]. split; auto.
      intros [|j] Hj; simpl; auto. apply H2. lia.
Qed.

Lemma firstn_plus (j m : nat) (s : str) :
  firstn (j + m) s = firstn j s ++ firstn m (skipn j s).
Proof.
  revert s; induction j as [|j IH]; intros [|c s]; simpl; auto.
  - now rewrite firstn_nil.
  - now rewrite IH.
Qed.

Lemma run_firstn (p : N -> bool) (s : str) (j : nat) :
  j <= run p s -> forallb p (firstn j s) = true.
Proof.
  revert s; induction j as [|j IH]; intros [|c s]; simpl; auto; try lia.
  destruct (p c); simpl; try lia. intros H. apply IH. lia.
Qed.

Lemma forallb_run (p : N -> bool) (w u : str) :
  forallb p w = true -> length w <= run p (w ++ u).
Proof.
  induction w as [|c w IH]; simpl; try lia.
  destruct (p c); simpl; try discriminate. intros H. apply IH in H. lia.
Qed.

(** The matcher is the pattern: what it matches at the head of a text is a
    word of the pattern, and it finds a match wherever a word of the pattern
    starts. *)
Lemma match_here_sound (r : regex) :
  forall s n, match_here r s = Some n -> matches r (firstn n s).
Proof.
  induction r as [|it r IH]; intros s n; simpl.
  - intros H; inversion H; subst. constructor.
  - intros H. apply backtrack_found in H as (j & m & Hj & Hk & ->).
    rewrite firstn_plus.
    pose proof (greedy_count_le_length it s) as Hlen.
    assert (Hrun : j <= run (cls it) s).
    { unfold greedy_count in Hj. destruct (rmax it); lia. }
    constructor.
    + now apply run_firstn.
    + rewrite length_firstn. lia.
    + intros hi Hhi. rewrite length_firstn.
      unfold greedy_count in Hj. rewrite Hhi in Hj. lia.
    + now apply IH.
Qed.

Lemma match_here_complete (r : regex) (w : str) :
  matches r w -> forall u, match_here r (w ++ u) <> None.
Proof.
  induction 1 as [|it r w1 w2 Hc Hlo Hhi Hm IH]; intros u; simpl;
    try discriminate.
  apply backtrack_finds with (j := length w1).
  - split; auto. unfold greedy_count.
    pose proof (forallb_run (cls it) w1 ((w2 ++ u)) Hc) as Hr.
    rewrite <- app_assoc.
    destruct (rmax it) as [hi|]; auto.
    specialize (Hhi hi eq_refl). lia.
  - rewrite <- app_assoc, skipn_app, skipn_all, Nat.sub_diag. simpl.
    apply IH.
Qed.

(** [re.search] finds nothing exactly when no part of the text is a word of
    the pattern. *)
Lemma re_search_none_matches (r : regex) (s : str) :
  re_search r s = None <->
  forall a w b, s = a ++ w ++ b -> ~ matches r w.
Proof.
  rewrite re_search_none. split.
  - intros H a w b -> Hm. specialize (H (length a)).
    rewrite skipn_app, skipn_all, Nat.sub_diag in H. simpl in H.
    now apply (match_here_complete Hm b).
  - intros H i. destruct (match_here r (skipn i s)) as [n|] eqn:E; auto.
    exfalso. apply match_here_sound in E.
    apply (H (firstn i s) (firstn n (skipn i s)) (skipn n (skipn i s))); auto.
    now rewrite !firstn_skipn.
Qed.

Lemma re_sub_id (r : regex) (repl s : str) :
  re_search r s = None -> re_sub r repl s = s.
Proof.
  intros H. apply scan_sub_id. now apply re_search_none.
Qed.

(** A pattern found nowhere in a text is found nowhere in a part of it. *)
Lemma re_search_none_part (r : regex) (a s b : str) :
  re_search r (a ++ s ++ b) = None -> re_search r s = None.
Proof.
  rewrite !re_search_none. intros H i.
  destruct (Nat.le_gt_cases i (length s)) as [Hi|Hi].
  - specialize (H (length a + i)).
    rewrite skipn_app in H.
    rewrite skipn_all2 in H by lia. simpl in H.
    replace (length a + i - length a) with i in H by lia.
    rewrite skipn_app in H. replace (i - length s) with 0 in H by lia.
    simpl in H.
    destruct (match_here r (skipn i s)) eqn:E; auto.
    exfalso. apply (@match_here_app r (skipn i s) b); congruence.
  - rewrite skipn_all2 by lia.
    specialize (H (length a + length s)).
    rewrite skipn_app in H. rewrite skipn_all2 in H by lia. simpl in H.
    replace (length a + length s - length a) with (length s) in H by lia.
    rewrite skipn_app in H. rewrite skipn_all in H. simpl in H.
    rewrite Nat.sub_diag in H. simpl in H.
    destruct (match_here r []) eqn:E; auto.
    exfalso. apply (@match_here_app r [] b); simpl; congruence.
Qed.

#[local] Arguments N.eqb : simpl never.
#[local] Arguments N.leb : simpl never.

Lemma startswith_single (x c : N) (s : str) :
  startswith [x] (c :: s) = (x =? c)%N.
Proof. simpl. apply andb_true_r. Qed.

Lemma run_skipn_run (p : N -> bool) (s : str) : run p (skipn (run p s) s) = 0.
Proof.
  induction s as [|c s IH]; simpl; auto.
  destruct (p c) eqn:E; simpl; auto. now rewrite E.
Qed.

Lemma run_zero_startswith (x : N) (s : str) :
  run (chr_is x) s = 0 -> startswith [x] s = false.
Proof.
  destruct s as [|c s]; simpl; auto. unfold chr_is.
  rewrite (N.eqb_sym x c). destruct (c =? x)%N; simpl; auto; discriminate.
Qed.

Lemma startswith_repeat_run (x : N) (k : nat) (s : str) :
  startswith (repeat x k) s = true <-> k <= run (chr_is x) s.
Proof.
  revert s; induction k as [|k IH]; intros s; simpl.
  - split; auto; lia.
  - destruct s as [|c s]; simpl.
    + split; try discriminate; lia.
    + unfold chr_is at 1. rewrite (N.eqb_sym x c).
      destruct (c =? x)%N; simpl.
      * rewrite IH. lia.
      * split; try discriminate; lia.
Qed.

Lemma startswith_head (a : N) (w s : str) :
  startswith [a] s = false -> startswith (a :: w) s = false.
Proof.
  destruct s as [|c s]; simpl; auto.
  rewrite andb_true_r. now intros ->.
Qed.

Lemma contains_skipn (w s : str) (k : nat) :
  contains w s = false -> contains w (skipn k s) = false.
Proof.
  intros H. rewrite <- (firstn_skipn k s) in H.
  now apply contains_app_false in H.
Qed.

(** One step of [re.sub] for a pattern [p{lo,}] with [lo > 0]. *)
Lemma re_sub_single_cons (p : N -> bool) (lo : nat) (repl : str) (c : N) (s : str) :
  0 < lo ->
  re_sub [Item p lo None] repl (c :: s) =
  if run p (c :: s) <? lo then c :: re_sub [Item p lo None] repl s
  else repl ++ re_sub [Item p lo None] repl (skipn (run p (c :: s)) (c :: s)).
Proof.
  intros Hlo. unfold re_sub. rewrite scan_sub_cons, match_here_single.
  destruct (Nat.ltb_spec (run p (c :: s)) lo) as [Hlt|Hge]; auto.
  destruct (run p (c :: s)) as [|n] eqn:E; try lia. reflexivity.
Qed.

(* ------------------------------------------------------------------ *)
(** * The rules of the normaliser, one by one *)

Lemma replace_CR_gone (s : str) :
  Forall (fun c => c <> CR) (replace [CR] [LF] s).
Proof.
  unfold replace. induction s as [|c s IH]; [constructor|].
  rewrite scan_sub_cons, startswith_single.
  destruct (CR =? c)%N eqn:E; simpl.
  - constructor; [discriminate|]. exact IH.
  - constructor; auto. apply N.eqb_neq in E. congruence.
Qed.

Lemma replace_absent (x : N) (w new s : str) :
  contains [x] s = false -> replace (x :: w) new s = s.
Proof.
  intros H. unfold replace. apply scan_sub_id. intros i.
  rewrite (@startswith_head x w); auto.
  now apply contains_skipn_false.
Qed.

Lemma startswith_cons2 (a : N) (w : str) (c : N) (s : str) :
  startswith (a :: w) (c :: s) = (a =? c)%N && startswith w s.
Proof. reflexivity. Qed.

Lemma run_cons (p : N -> bool) (c : N) (s : str) :
  run p (c :: s) = if p c then S (run p s) else 0.
Proof. reflexivity. Qed.

(** Rule 2 leaves no tab and no two spaces in a row. *)
Lemma hspace_collapsed_aux (n : nat) :
  forall s, length s <= n ->
  contains [TAB] (re_sub re_hspace [SP] s) = false /\
  contains [SP; SP] (re_sub re_hspace [SP] s) = false /\
  (run cls_hspace s = 0 -> run (chr_is SP) (re_sub re_hspace [SP] s) = 0).
Proof.
  unfold re_hspace, plus.
  induction n as [|n IH]; intros [|c s] Hlen; simpl in Hlen; try lia;
    try (repeat split; reflexivity).
  rewrite re_sub_single_cons by lia. rewrite run_cons.
  destruct (cls_hspace c) eqn:Ec.
  - destruct (Nat.ltb_spec (S (run cls_hspace s)) 1) as [Hlt|_]; try lia.
    cbn [skipn].
    set (o := re_sub _ _ (skipn (run cls_hspace s) s)).
    assert (Hl : length (skipn (run cls_hspace s) s) <= n)
      by (rewrite length_skipn; lia).
    destruct (IH _ Hl) as (H1 & H2 & H3). fold o in H1, H2, H3.
    specialize (H3 (run_skipn_run _ _)).
    cbn [app]. repeat split.
    + rewrite contains_cons, startswith_single, H1. reflexivity.
    + rewrite contains_cons, startswith_cons2, H2.
      rewrite (run_zero_startswith _ _ H3). reflexivity.
    + discriminate.
  - destruct (Nat.ltb_spec 0 1) as [_|Hge]; try lia.
    destruct (IH s ltac:(lia)) as (H1 & H2 & H3).
    unfold cls_hspace in Ec. apply orb_false_iff in Ec as [Ec1 Ec2].
    repeat split.
    + rewrite contains_cons, startswith_single, H1.
      now rewrite (N.eqb_sym TAB c), Ec2.
    + rewrite contains_cons, startswith_cons2, H2.
      now rewrite (N.eqb_sym SP c), Ec1.
    + intros _. rewrite run_cons. unfold chr_is. now rewrite Ec1.
Qed.

Lemma hspace_collapsed (s : str) :
  contains [TAB] (re_sub re_hspace [SP] s) = false /\
  contains [SP; SP] (re_sub re_hspace [SP] s) = false.
Proof.
  destruct (@hspace_collapsed_aux (length s) s (le_n _)) as (H1 & H2 & _); auto.
Qed.

(** Rule 2 changes nothing in a text without tab and double space. *)
Lemma hspace_fixed (s : str) :
  contains [TAB] s = false -> contains [SP; SP] s = false ->
  re_sub re_hspace [SP] s = s.
Proof.
  unfold re_hspace, plus.
  induction s as [|c s IH]; auto.
  rewrite !contains_cons, startswith_single, startswith_cons2.
  intros Ht Hs.
  apply orb_false_iff in Ht as [Ht1 Ht2]. apply orb_false_iff in Hs as [Hs1 Hs2].
  rewrite re_sub_single_cons by lia. rewrite run_cons.
  unfold cls_hspace at 1. rewrite (N.eqb_sym c TAB), Ht1, orb_false_r.
  destruct (c =? SP)%N eqn:Ec.
  - rewrite (N.eqb_sym SP c), Ec in Hs1. cbn [andb] in Hs1.
    assert (Hr : run cls_hspace s = 0).
    { destruct s as [|d s]; auto.
      rewrite startswith_single in Hs1.
      rewrite contains_cons, startswith_single in Ht2.
      apply orb_false_iff in Ht2 as [Ht2 _].
      rewrite run_cons. unfold cls_hspace.
      now rewrite (N.eqb_sym d SP), (N.eqb_sym d TAB), Hs1, Ht2. }
    rewrite Hr. destruct (Nat.ltb_spec 1 1) as [Hlt|_]; try lia.
    cbn [skipn app]. apply N.eqb_eq in Ec. subst c. f_equal. now apply IH.
  - destruct (Nat.ltb_spec 0 1) as [_|Hge]; try lia.
    f_equal. now apply IH.
Qed.

(** Rule 3 leaves no three newlines in a row. *)
Lemma blank_lines_collapsed_aux (n : nat) :
  forall s, length s <= n ->
  contains [LF; LF; LF] (re_sub re_blank_lines [LF; LF] s) = false /\
  run (chr_is LF) (re_sub re_blank_lines [LF; LF] s) <= run (chr_is LF) s /\
  run (chr_is LF) (re_sub re_blank_lines [LF; LF] s) <= 2.
Proof.
  unfold re_blank_lines, at_least.
  induction n as [|n IH]; intros [|c s] Hlen; simpl in Hlen; try lia;
    try (repeat split; cbn; lia).
  rewrite re_sub_single_cons by lia.
  destruct (Nat.ltb_spec (run (chr_is LF) (c :: s)) 3) as [Hlt|Hge].
  - destruct (IH s ltac:(lia)) as (H1 & H2 & H3).
    set (o := re_sub _ _ s) in *.
    rewrite run_cons in Hlt. rewrite !run_cons.
    rewrite contains_cons, H1, orb_false_r.
    destruct (chr_is LF c) eqn:Ec.
    + repeat split; try lia.
      change [LF; LF; LF] with (repeat LF 3).
      destruct (startswith (repeat LF 3) (c :: o)) eqn:E; auto.
      apply startswith_repeat_run in E. rewrite run_cons, Ec in E. lia.
    + repeat split; try lia.
      rewrite startswith_cons2. unfold chr_is in Ec.
      now rewrite (N.eqb_sym LF c), Ec.
  - set (t := skipn _ (c :: s)).
    assert (Hl : length t <= n).
    { unfold t. rewrite length_skipn. simpl length. lia. }
    destruct (IH _ Hl) as (H1 & H2 & H3).
    set (o := re_sub _ _ t) in *.
    assert (Ht : run (chr_is LF) t = 0) by apply run_skipn_run.
    assert (Ho : run (chr_is LF) o = 0) by lia.
    pose proof Hge as Hge'. rewrite run_cons in Hge'.
    cbn [app]. rewrite !run_cons. replace (chr_is LF LF) with true by reflexivity.
    repeat split; try lia.
    rewrite !contains_cons, H1, !orb_false_r.
    change [LF; LF; LF] with (repeat LF 3).
    apply orb_false_iff; split.
    + destruct (startswith (repeat LF 3) (LF :: LF :: o)) eqn:E; auto.
      apply startswith_repeat_run in E. rewrite !run_cons in E.
      replace (chr_is LF LF) with true in E by reflexivity. lia.
    + destruct (startswith (repeat LF 3) (LF :: o)) eqn:E; auto.
      apply startswith_repeat_run in E. rewrite !run_cons in E.
      replace (chr_is LF LF) with true in E by reflexivity. lia.
Qed.

Lemma blank_lines_collapsed (s : str) :
  contains [LF; LF; LF] (re_sub re_blank_lines [LF; LF] s) = false.
Proof.
  destruct (@blank_lines_collapsed_aux (length s) s (le_n _)) as (H1 & _); auto.
Qed.

(** Rule 3 brings no two spaces together. *)
Lemma blank_lines_keep_spaces_aux (n : nat) :
  forall s, length s <= n -> contains [SP; SP] s = false ->
  contains [SP; SP] (re_sub re_blank_lines [LF; LF] s) = false /\
  (run (chr_is SP) s = 0 ->
   run (chr_is SP) (re_sub re_blank_lines [LF; LF] s) = 0).
Proof.
  unfold re_blank_lines, at_least.
  induction n as [|n IH]; intros [|c s] Hlen Hs; simpl in Hlen; try lia;
    try (split; reflexivity).
  rewrite re_sub_single_cons by lia.
  destruct (Nat.ltb_spec (run (chr_is LF) (c :: s)) 3) as [Hlt|Hge].
  - rewrite contains_cons, startswith_cons2 in Hs.
    apply orb_false_iff in Hs as [Hs1 Hs2].
    destruct (IH s ltac:(lia) Hs2) as (H1 & H2).
    set (o := re_sub _ _ s) in *.
    rewrite contains_cons, startswith_cons2, H1, orb_false_r, !run_cons.
    unfold chr_is at 1 3. rewrite (N.eqb_sym SP c) in *.
    destruct (c =? SP)%N eqn:Ec; cbn [andb] in *; split; auto; try discriminate.
    apply run_zero_startswith, H2.
    destruct s as [|d s]; auto.
    rewrite startswith_single in Hs1. rewrite run_cons. unfold chr_is.
    now rewrite (N.eqb_sym d SP), Hs1.
  - set (t := skipn _ (c :: s)).
    assert (Hl : length t <= n).
    { unfold t. rewrite length_skipn. simpl length. lia. }
    assert (Hts : contains [SP; SP] t = false) by now apply contains_skipn.
    destruct (IH _ Hl Hts) as (H1 & H2).
    set (o := re_sub _ _ t) in *.
    cbn [app]. rewrite !contains_cons, !startswith_cons2, H1.
    split; reflexivity.
Qed.

Lemma blank_lines_keep_spaces (s : str) :
  contains [SP; SP] s = false ->
  contains [SP; SP] (re_sub re_blank_lines [LF; LF] s) = false.
Proof.
  intros H.
  destruct (@blank_lines_keep_spaces_aux (length s) s (le_n _) H) as (H1 & _); auto.
Qed.

(** Rule 3 changes nothing in a text without three newlines in a row. *)
Lemma blank_lines_fixed (s : str) :
  contains [LF; LF; LF] s = false -> re_sub re_blank_lines [LF; LF] s = s.
Proof.
  intros H. apply re_sub_id, re_search_none. intros i.
  unfold re_blank_lines, at_least. rewrite match_here_single.
  destruct (Nat.ltb_spec (run (chr_is LF) (skipn i s)) 3) as [Hlt|Hge]; auto.
  apply (startswith_repeat_run LF 3) in Hge.
  change (repeat LF 3) with [LF; LF; LF] in Hge.
  now rewrite contains_skipn_false in Hge.
Qed.

(* ------------------------------------------------------------------ *)
(** * [strip] *)

Lemma lstrip_suffix (s : str) : exists a, s = a ++ lstrip s.
Proof.
  induction s as [|c s [a IH]]; simpl.
  - now exists [].
  - destruct (isspace c).
    + exists (c :: a). simpl. now f_equal.
    + now exists [].
Qed.

Lemma rstrip_prefix (s : str) : exists b, s = rstrip s ++ b.
Proof.
  unfold rstrip. destruct (lstrip_suffix (rev s)) as [a H].
  exists (rev a). rewrite <- rev_app_distr, <- H. now rewrite rev_involutive.
Qed.

(** The stripped text is a part of the text. *)
Lemma strip_part (s : str) : exists a b, s = a ++ strip s ++ b.
Proof.
  unfold strip. destruct (lstrip_suffix s) as [a Ha].
  destruct (rstrip_prefix (lstrip s)) as [b Hb].
  exists a, b. now rewrite <- Hb.
Qed.

Lemma lstrip_head (s : str) : run isspace (lstrip s) = 0.
Proof.
  induction s as [|c s IH]; simpl; auto.
  destruct (isspace c) eqn:E; auto. simpl. now rewrite E.
Qed.

Lemma lstrip_fixed (s : str) : run isspace s = 0 -> lstrip s = s.
Proof.
  destruct s as [|c s]; simpl; auto. destruct (isspace c); auto; discriminate.
Qed.

Lemma strip_strip (s : str) : strip (strip s) = strip s.
Proof.
  unfold strip at 1.
  assert (Hl : lstrip (strip s) = strip s).
  { apply lstrip_fixed. unfold strip.
    destruct (rstrip_prefix (lstrip s)) as [b Hb].
    pose proof (run_app_le isspace (rstrip (lstrip s)) b) as Hle.
    rewrite <- Hb, lstrip_head in Hle. lia. }
  rewrite Hl. unfold strip, rstrip.
  rewrite rev_involutive. now rewrite (lstrip_fixed _ (lstrip_head _)).
Qed.

(* ------------------------------------------------------------------ *)
(** * White space as the page-footer pattern sees it *)

Lemma squeeze_solid_cons (c : N) (s : str) :
  isspace c = false -> squeeze (c :: s) = c :: squeeze s.
Proof. intros H. cbn [squeeze]. now rewrite H. Qed.

Lemma squeeze_space_head (s : str) :
  forall c, isspace c = true -> exists k, squeeze (c :: s) = SP :: k.
Proof.
  induction s as [|d s IH]; intros c Hc; cbn [squeeze]; rewrite Hc.
  - eauto.
  - destruct (isspace d) eqn:Hd.
    + destruct (IH d Hd) as [k Hk]. cbn [squeeze] in Hk. rewrite Hd in Hk. eauto.
    + eauto.
Qed.

Lemma squeeze_cons (c : N) (s : str) :
  squeeze (c :: s) =
  if isspace c then SP :: drop_space (squeeze s) else c :: squeeze s.
Proof.
  destruct (isspace c) eqn:Hc; [|now apply squeeze_solid_cons].
  destruct s as [|d s].
  - cbn [squeeze]. now rewrite Hc.
  - destruct (isspace d) eqn:Hd.
    + destruct (squeeze_space_head s d Hd) as [k Hk].
      transitivity (squeeze (d :: s)).
      * cbn [squeeze]. now rewrite Hc, Hd.
      * rewrite Hk. reflexivity.
    + transitivity (SP :: squeeze (d :: s)).
      * cbn [squeeze]. now rewrite Hc, Hd.
      * rewrite squeeze_solid_cons by assumption. cbn [drop_space]. now rewrite Hd.
Qed.

Lemma squeeze_spaces_app (w t : str) :
  w <> [] -> forallb isspace w = true ->
  squeeze (w ++ t) = SP :: drop_space (squeeze t).
Proof.
  induction w as [|c w IH]; [congruence|]. intros _ H.
  cbn [forallb] in H. apply andb_true_iff in H as [Hc Hw].
  cbn [app]. rewrite squeeze_cons, Hc.
  destruct w as [|d w]; [reflexivity|].
  rewrite IH by (congruence || assumption). reflexivity.
Qed.

(** A substitution that replaces white space by white space leaves the
    squeezed text as it is. *)
Lemma squeeze_scan_sub (m : str -> option nat) (repl : str) :
  (forall s n, m s = Some n -> forallb isspace (firstn n s) = true) ->
  repl <> [] -> forallb isspace repl = true ->
  forall s, squeeze (scan_sub m repl 0 s) = squeeze s.
Proof.
  intros Hm Hne Hr s.
  remember (length s) as n eqn:Hn.
  assert (Hle : length s <= n) by lia. clear Hn.
  revert s Hle; induction n as [|n IH]; intros [|c s] Hle; simpl in Hle;
    try lia; auto.
  rewrite scan_sub_cons.
  destruct (m (c :: s)) as [[|k]|] eqn:E.
  - rewrite !squeeze_cons. now rewrite IH by lia.
  - specialize (Hm _ _ E).
    rewrite squeeze_spaces_app by assumption.
    rewrite IH by (rewrite length_skipn; lia).
    rewrite <- (firstn_skipn (S k) (c :: s)) at 1.
    rewrite squeeze_spaces_app; auto. discriminate.
  - rewrite !squeeze_cons. now rewrite IH by lia.
Qed.

Lemma forallb_impl (p q : N -> bool) (s : str) :
  (forall c, p c = true -> q c = true) ->
  forallb p s = true -> forallb q s = true.
Proof.
  intros H. induction s as [|c s IH]; simpl; auto.
  intros Hs. apply andb_true_iff in Hs as [H1 H2].
  now rewrite (H _ H1), IH.
Qed.

Lemma squeeze_replace (old new s : str) :
  forallb isspace old = true -> new <> [] -> forallb isspace new = true ->
  squeeze (replace old new s) = squeeze s.
Proof.
  intros Ho Hne Hn. unfold replace. apply squeeze_scan_sub; auto.
  intros t n. destruct (startswith old t) eqn:E; try discriminate.
  intros H; inversion H; subst.
  apply startswith_prefix in E as [b ->].
  now rewrite firstn_app, Nat.sub_diag, firstn_all, app_nil_r.
Qed.

Lemma squeeze_re_sub_single (p : N -> bool) (lo : nat) (repl s : str) :
  (forall c, p c = true -> isspace c = true) ->
  repl <> [] -> forallb isspace repl = true ->
  squeeze (re_sub [Item p lo None] repl s) = squeeze s.
Proof.
  intros Hp Hne Hr. unfold re_sub. apply squeeze_scan_sub; auto.
  intros t n. rewrite match_here_single.
  destruct (run p t <? lo); try discriminate.
  intros H; inversion H; subst.
  apply forallb_impl with (p := p); auto. now apply run_firstn.
Qed.

(** Rules 1 to 3 only turn white space into white space. *)
Lemma squeeze_before_footer_removal (x : str) :
  squeeze (before_footer_removal x) = squeeze x.
Proof.
  unfold before_footer_removal, re_blank_lines, re_hspace, at_least, plus.
  rewrite squeeze_re_sub_single, squeeze_re_sub_single.
  - rewrite !squeeze_replace; auto; discriminate.
  - intros c. unfold cls_hspace. intros H. apply orb_true_iff in H as [H|H];
      apply N.eqb_eq in H; subst; reflexivity.
  - discriminate.
  - reflexivity.
  - intros c H. apply N.eqb_eq in H. subst. reflexivity.
  - discriminate.
  - reflexivity.
Qed.

Lemma isspace_ranges (c : N) :
  isspace c = true ->
  (0x9 <= c <= 0xD \/ 0x1C <= c <= 0x20 \/ c = 0x85 \/ c = 0xA0 \/ c = 0x1680 \/
   0x2000 <= c <= 0x200A \/ 0x2028 <= c <= 0x2029 \/ c = 0x202F \/
   c = 0x205F \/ c = 0x3000)%N.
Proof.
  unfold isspace, in_ranges, whitespace_ranges. cbn [existsb fst snd].
  repeat (progress rewrite ?orb_true_iff, ?andb_true_iff, ?N.leb_le). lia.
Qed.

Lemma isdecimal_solid (c : N) : isdecimal c = true -> isspace c = false.
Proof.
  intros Hd. destruct (isspace c) eqn:Hs; auto. exfalso.
  apply isspace_ranges in Hs.
  assert (Hc : In c [0x9; 0xA; 0xB; 0xC; 0xD; 0x1C; 0x1D; 0x1E; 0x1F; 0x20;
                     0x85; 0xA0; 0x1680; 0x2000; 0x2001; 0x2002; 0x2003;
                     0x2004; 0x2005; 0x2006; 0x2007; 0x2008; 0x2009; 0x200A;
                     0x2028; 0x2029; 0x202F; 0x205F; 0x3000]%N).
  { cbn [In]. lia. }
  cbn [In] in Hc.
  repeat (destruct Hc as [Hc|Hc];
          [subst c; vm_compute in Hd; discriminate|]).
  exact Hc.
Qed.

Lemma ignorecase_solid (p c : N) :
  is_ascii_lower (ascii_tolower p) = true ->
  ignorecase_eq p c = true -> isspace c = false.
Proof.
  unfold ignorecase_eq, ignorecase_extra, is_ascii_lower.
  set (lo := ascii_tolower p). intros Hlo H.
  destruct (isspace c) eqn:Hs; auto. exfalso.
  apply isspace_ranges in Hs. clearbody lo. revert Hlo H.
  repeat (progress rewrite ?orb_true_iff, ?andb_true_iff, ?N.leb_le, ?N.eqb_eq).
  lia.
Qed.

Lemma run_squeeze_solid (p : N -> bool) (u : str) :
  (forall c, p c = true -> isspace c = false) ->
  run p (squeeze u) = run p u.
Proof.
  intros Hp. induction u as [|c u IH]; auto.
  rewrite squeeze_cons. destruct (isspace c) eqn:Hc.
  - rewrite !run_cons.
    destruct (p SP) eqn:E1; [apply Hp in E1; discriminate|].
    destruct (p c) eqn:E2; [apply Hp in E2; congruence|]. reflexivity.
  - rewrite !run_cons, IH. reflexivity.
Qed.

Lemma skipn_squeeze_solid (p : N -> bool) (j : nat) :
  (forall c, p c = true -> isspace c = false) ->
  forall u, j <= run p u -> skipn j (squeeze u) = squeeze (skipn j u).
Proof.
  intros Hp. induction j as [|j IH]; intros u Hj; auto.
  destruct u as [|c u]; [reflexivity|].
  rewrite run_cons in Hj. destruct (p c) eqn:E; try lia.
  rewrite squeeze_solid_cons by auto. cbn [skipn]. apply IH. lia.
Qed.

Lemma backtrack_iff (k : nat -> option nat) (lo n : nat) :
  backtrack k lo n <> None <-> exists j, lo <= j <= n /\ k j <> None.
Proof.
  split.
  - destruct (backtrack k lo n) as [t|] eqn:E; try congruence. intros _.
    apply backtrack_found in E as (j & m & Hj & Hk & _).
    exists j. split; auto. congruence.
  - intros (j & Hj & Hk). now apply backtrack_finds with (j := j).
Qed.

Lemma match_here_no_start (it : item) (r : regex) (s : str) :
  1 <= rmin it -> run (cls it) s = 0 -> match_here (it :: r) s = None.
Proof.
  intros Hlo Hr. cbn [match_here].
  assert (Hg : greedy_count it s = 0).
  { unfold greedy_count. rewrite Hr. destruct (rmax it); reflexivity. }
  rewrite Hg. cbn [backtrack].
  destruct (Nat.ltb_spec 0 (rmin it)); [reflexivity|lia].
Qed.

Lemma run_solid_space (it : item) (c : N) (s : str) :
  solid it -> isspace c = true -> run (cls it) (c :: s) = 0.
Proof.
  intros Hs Hc. rewrite run_cons.
  destruct (cls it c) eqn:E; auto. apply Hs in E. congruence.
Qed.

Lemma drop_space_squeeze (t : str) :
  run isspace t = 0 -> drop_space (squeeze t) = squeeze t.
Proof.
  destruct t as [|c t]; auto. rewrite run_cons.
  destruct (isspace c) eqn:E; try discriminate. intros _.
  rewrite squeeze_solid_cons by assumption. cbn [drop_space]. now rewrite E.
Qed.

Lemma squeeze_run (u : str) :
  0 < run isspace u ->
  squeeze u = SP :: squeeze (skipn (run isspace u) u) /\
  run isspace (squeeze u) = 1.
Proof.
  intros Hr. set (t := skipn (run isspace u) u).
  assert (Ht : run isspace t = 0) by apply run_skipn_run.
  assert (E : squeeze u = SP :: squeeze t).
  { rewrite <- (firstn_skipn (run isspace u) u) at 1. fold t.
    rewrite squeeze_spaces_app.
    - now rewrite drop_space_squeeze.
    - destruct u as [|c u]; [simpl in Hr; lia|].
      rewrite run_cons in *. destruct (isspace c); [discriminate|lia].
    - now apply run_firstn. }
  split; auto. rewrite E, run_cons.
  replace (isspace SP) with true by reflexivity.
  destruct t as [|c t]; auto.
  rewrite run_cons in Ht. destruct (isspace c) eqn:Hc; try discriminate.
  rewrite squeeze_solid_cons, run_cons, Hc by assumption. reflexivity.
Qed.

Lemma run_skipn_lt (p : N -> bool) (j : nat) :
  forall u, j < run p u -> 0 < run p (skipn j u).
Proof.
  induction j as [|j IH]; intros u Hj; auto.
  destruct u as [|c u]; [simpl in Hj; lia|].
  rewrite run_cons in Hj. destruct (p c); try lia.
  cbn [skipn]. apply IH. lia.
Qed.

Lemma run_positive_head (p : N -> bool) (u : str) :
  0 < run p u -> exists c u', u = c :: u' /\ p c = true.
Proof.
  destruct u as [|c u]; simpl; try lia.
  destruct (p c) eqn:E; try lia. eauto.
Qed.

(** A space-blind pattern matches a text exactly when it matches the
    squeezed text. *)
Lemma match_here_squeeze (r : regex) :
  space_blind r ->
  forall u, match_here r u <> None <-> match_here r (squeeze u) <> None.
Proof.
  induction 1 as [|it r Hs Hr IH|it r Hs Hlo Hr IH]; intros u.
  - simpl. split; discriminate.
  - cbn [match_here]. rewrite !backtrack_iff.
    assert (Hg : greedy_count it (squeeze u) = greedy_count it u).
    { unfold greedy_count. now rewrite run_squeeze_solid. }
    assert (Hj : forall j, j <= greedy_count it u -> j <= run (cls it) u).
    { unfold greedy_count. destruct (rmax it); lia. }
    rewrite Hg.
    split; intros (j & Hjr & Hk); exists j; (split; [assumption|]).
    + rewrite (@skipn_squeeze_solid (cls it)) by (auto; apply Hj; lia).
      exact (proj1 (IH _) Hk).
    + rewrite (@skipn_squeeze_solid (cls it)) in Hk by (auto; apply Hj; lia).
      exact (proj2 (IH _) Hk).
  - change (match_here (plus isspace :: it :: r) u)
      with (backtrack (fun n => match_here (it :: r) (skipn n u)) 1
                      (run isspace u)).
    change (match_here (plus isspace :: it :: r) (squeeze u))
      with (backtrack (fun n => match_here (it :: r) (skipn n (squeeze u))) 1
                      (run isspace (squeeze u))).
    rewrite !backtrack_iff.
    destruct (Nat.eq_dec (run isspace u) 0) as [Hz|Hnz].
    + assert (Hz' : run isspace (squeeze u) = 0).
      { destruct u as [|c u]; auto. rewrite run_cons in Hz.
        destruct (isspace c) eqn:Hc; try discriminate.
        now rewrite squeeze_solid_cons, run_cons, Hc by assumption. }
      rewrite Hz, Hz'. split; intros (j & Hj & _); lia.
    + destruct (squeeze_run u ltac:(lia)) as [Hsq Hrun].
      rewrite Hrun. split.
      * intros (j & Hj & Hk).
        assert (j = run isspace u).
        { destruct (Nat.eq_dec j (run isspace u)) as [|Hne]; auto. exfalso.
          apply Hk.
          destruct (@run_positive_head isspace (skipn j u)
                      (@run_skipn_lt isspace j u ltac:(lia)))
            as (c & u' & -> & Hc).
          apply match_here_no_start; auto. now apply run_solid_space. }
        subst j. exists 1. split; [lia|].
        rewrite Hsq. cbn [skipn]. exact (proj1 (IH _) Hk).
      * intros (j & Hj & Hk). assert (j = 1) by lia. subst j.
        rewrite Hsq in Hk. cbn [skipn] in Hk.
        exists (run isspace u). split; [lia|]. exact (proj2 (IH _) Hk).
Qed.

Lemma re_search_cons_none (r : regex) (c : N) (s : str) :
  match_here r (c :: s) = None ->
  (re_search r (c :: s) = None <-> re_search r s = None).
Proof.
  intros H. cbn [re_search]. rewrite H.
  destruct (re_search r s) as [[i n]|]; split; auto; discriminate.
Qed.

(** A space-blind pattern that starts with a character other than white
    space is found in a text exactly when it is found in the squeezed text. *)
Lemma re_search_squeeze (it : item) (r : regex) :
  solid it -> 1 <= rmin it -> space_blind (it :: r) ->
  forall s, re_search (it :: r) s = None <->
            re_search (it :: r) (squeeze s) = None.
Proof.
  intros Hs Hlo Hb. induction s as [|c s IH]; [reflexivity|].
  rewrite squeeze_cons. destruct (isspace c) eqn:Hc.
  - rewrite !re_search_cons_none
      by (apply match_here_no_start; auto; now apply run_solid_space).
    rewrite IH. destruct (squeeze s) as [|d k]; [reflexivity|].
    cbn [drop_space]. destruct (isspace d) eqn:Hd; [|reflexivity].
    rewrite re_search_cons_none; [reflexivity|].
    apply match_here_no_start; auto. now apply run_solid_space.
  - pose proof (match_here_squeeze Hb (c :: s)) as Hm.
    rewrite squeeze_solid_cons in Hm by assumption.
    destruct (match_here (it :: r) (c :: s)) as [n|] eqn:E1;
      destruct (match_here (it :: r) (c :: squeeze s)) as [n'|] eqn:E2.
    + cbn [re_search]. rewrite E1, E2. split; discriminate.
    + exfalso. apply (proj1 Hm); [discriminate|reflexivity].
    + exfalso. apply (proj2 Hm); [discriminate|reflexivity].
    + rewrite !re_search_cons_none by assumption. exact IH.
Qed.

Lemma re_page_footer_space_blind :
  exists it r, re_page_footer = it :: r /\ solid it /\ 1 <= rmin it /\
               space_blind (it :: r).
Proof.
  assert (Hl : forall p, is_ascii_lower (ascii_tolower p) = true ->
                         solid (once (chr_ignorecase p))).
  { intros p Hp c. now apply ignorecase_solid. }
  assert (Hd : solid (plus isdecimal)).
  { intros c. apply isdecimal_solid. }
  eexists; eexists. split; [reflexivity|].
  split; [apply Hl; reflexivity|]. split; [cbn; lia|].
  repeat first
    [ apply space_blind_nil
    | apply space_blind_space; [| cbn; lia |]
    | apply space_blind_solid ];
    try exact Hd; apply Hl; reflexivity.
Qed.

(** Rules 1 to 3 neither make nor unmake a page footer. *)
Lemma footer_before_removal (x : str) :
  re_search re_page_footer x = None ->
  re_search re_page_footer (before_footer_removal x) = None.
Proof.
  destruct re_page_footer_space_blind as (it & r & -> & Hs & Hlo & Hb).
  intros H. apply (proj2 (re_search_squeeze Hs Hlo Hb _)).
  rewrite squeeze_before_footer_removal.
  exact (proj1 (re_search_squeeze Hs Hlo Hb _) H).
Qed.

(* ================================================================== *)
(** * Text normaliser: properties *)

Lemma normalize_text_unfold (x : str) :
  normalize_text x = strip (re_sub re_page_footer [] (before_footer_removal x)).
Proof. reflexivity. Qed.

(** On a text that none of the rules 1 to 4 applies to, only the trimming is
    left. *)
Lemma normalize_text_clean (x : str) :
  contains [CR] x = false ->
  contains [TAB] x = false ->
  contains [SP; SP] x = false ->
  contains [LF; LF; LF] x = false ->
  re_search re_page_footer x = None ->
  normalize_text x = strip x.
Proof.
  intros Hcr Htab Hsp Hnl Hpf.
  rewrite normalize_text_unfold. unfold before_footer_removal.
  rewrite (@replace_absent CR [LF] [LF] x Hcr), (@replace_absent CR [] [LF] x Hcr).
  rewrite hspace_fixed, blank_lines_fixed by assumption.
  now rewrite re_sub_id by assumption.
Qed.

(** What rules 1 to 3 establish. *)
Lemma before_footer_removal_clean (x : str) :
  contains [CR] (before_footer_removal x) = false /\
  contains [TAB] (before_footer_removal x) = false /\
  contains [SP; SP] (before_footer_removal x) = false /\
  contains [LF; LF; LF] (before_footer_removal x) = false.
Proof.
  unfold before_footer_removal.
  set (z1 := replace [CR] [LF] _).
  assert (H1 : Forall (fun c => c <> CR) z1) by apply replace_CR_gone.
  set (z2 := re_sub re_hspace [SP] z1).
  assert (H2 : Forall (fun c => c <> CR) z2).
  { apply scan_sub_Forall; auto. constructor; [discriminate|constructor]. }
  destruct (hspace_collapsed z1) as [Ht Hs]. fold z2 in Ht, Hs.
  repeat split.
  - apply contains_single_Forall, scan_sub_Forall; auto.
    repeat constructor; discriminate.
  - apply contains_single_Forall, scan_sub_Forall.
    + repeat constructor; discriminate.
    + now apply contains_single_Forall.
  - now apply blank_lines_keep_spaces.
  - apply blank_lines_collapsed.
Qed.

(** C1 (as stated, refuted): a page footer between two words leaves two
    spaces behind, which a second pass collapses. *)
Lemma normalize_text_not_idempotent :
  ~ (forall x, normalize_text (normalize_text x) = normalize_text x).
Proof.
  intros H. specialize (H (lit "a Page 1 of 2 b")).
  vm_compute in H. discriminate.
Qed.

(** Where the page-footer rule removes nothing, a second pass changes
    nothing. *)
Lemma normalize_text_twice_unless_removed (x : str) :
  re_search re_page_footer (before_footer_removal x) = None ->
  normalize_text (normalize_text x) = normalize_text x.
Proof.
  intros Hpf.
  assert (Hn : normalize_text x = strip (before_footer_removal x)).
  { rewrite normalize_text_unfold. now rewrite re_sub_id by assumption. }
  rewrite Hn.
  destruct (strip_part (before_footer_removal x)) as (a & b & Hab).
  destruct (before_footer_removal_clean x) as (Hcr & Htab & Hsp & Hnl).
  rewrite Hab in Hcr, Htab, Hsp, Hnl, Hpf.
  apply contains_app_false in Hcr as [_ Hcr].
  apply contains_app_false in Hcr as [Hcr _].
  apply contains_app_false in Htab as [_ Htab].
  apply contains_app_false in Htab as [Htab _].
  apply contains_app_false in Hsp as [_ Hsp].
  apply contains_app_false in Hsp as [Hsp _].
  apply contains_app_false in Hnl as [_ Hnl].
  apply contains_app_false in Hnl as [Hnl _].
  apply re_search_none_part in Hpf.
  rewrite normalize_text_clean by assumption.
  apply strip_strip.
Qed.

(** C1 (amended): normalisation is idempotent on every text that contains no
    page footer ("Page <number> of <number>", whatever the case and the white
    space between the words). *)
Theorem normalize_text_idempotent (x : str) :
  re_search re_page_footer x = None ->
  normalize_text (normalize_text x) = normalize_text x.
Proof.
  intros H. apply normalize_text_twice_unless_removed.
  now apply footer_before_removal.
Qed.

(** C7 (as stated, refuted): a tab is neither a newline run nor a run of
    spaces, and rule 2 turns it into a space. *)
Lemma normalize_text_tab_not_trim :
  ~ (forall x, contains [LF; LF; LF] x = false -> contains [SP; SP] x = false ->
               normalize_text x = strip x).
Proof.
  intros H. specialize (H [97; TAB; 98]%N eq_refl eq_refl).
  vm_compute in H. discriminate.
Qed.

(** The same for a carriage return and for a page footer. *)
Example normalize_text_cr_not_trim :
  normalize_text [97; CR; 98]%N = [97; LF; 98]%N /\
  strip [97; CR; 98]%N = [97; CR; 98]%N.
Proof. split; vm_compute; reflexivity. Qed.

Example normalize_text_footer_not_trim :
  normalize_text (lit "xPage 1 of 2y") = lit "xy" /\
  strip (lit "xPage 1 of 2y") = lit "xPage 1 of 2y".
Proof. split; vm_compute; reflexivity. Qed.

(** C7 (amended): on a text with no carriage return, no tab, no two spaces in
    a row, no three newlines in a row and no page footer, normalisation is
    trimming. *)
Theorem normalize_text_is_trim (x : str) :
  contains [CR] x = false ->
  contains [TAB] x = false ->
  contains [SP; SP] x = false ->
  contains [LF; LF; LF] x = false ->
  re_search re_page_footer x = None ->
  normalize_text x = strip x.
Proof. apply normalize_text_clean. Qed.

(* ================================================================== *)
(** * Clause locator: properties *)

Lemma str_eqb_eq (a b : str) : str_eqb a b = true <-> a = b.
Proof.
  revert b; induction a as [|x a IH]; intros [|y b]; simpl;
    try (split; (discriminate || reflexivity)).
  rewrite andb_true_iff, N.eqb_eq, IH. split.
  - intros [-> ->]; reflexivity.
  - intros H; inversion H; auto.
Qed.

Lemma run_cls_any (s : str) : run cls_any s = length s.
Proof.
  induction s as [|c s IH]; simpl; auto.
  unfold cls_any at 1. rewrite orb_negb_r. now f_equal.
Qed.

Lemma match_here_once (p : N -> bool) (r : regex) (s : str) :
  match_here (once p :: r) s =
  match s with
  | c :: s' => if p c then option_map S (match_here r s') else None
  | [] => None
  end.
Proof.
  unfold once. cbn [match_here rmin]. unfold greedy_count. cbn [cls rmax].
  destruct s as [|c s]; [reflexivity|].
  rewrite run_cons. destruct (p c); [|reflexivity].
  replace (Nat.min (S (run p s)) 1) with 1 by lia.
  cbn [backtrack Nat.ltb Nat.leb skipn].
  destruct (match_here r s); reflexivity.
Qed.

(** An anchor pattern at the head of a text: the word, up to case, then all
    that follows up to 1800 characters. *)
Lemma match_here_anchor (kw s : str) :
  match_here (word_ignorecase kw ++ [between 0 1800 cls_any]) s =
  if startswith_ignorecase kw s
  then Some (length kw + Nat.min (length s - length kw) 1800)
  else None.
Proof.
  revert s; induction kw as [|p kw IH]; intros s.
  - unfold between.
    cbn [word_ignorecase map app startswith_ignorecase match_here rmin].
    unfold greedy_count. cbn [cls rmax]. rewrite run_cls_any, backtrack_last.
    cbn [Nat.ltb Nat.leb length]. f_equal. lia.
  - cbn [word_ignorecase map app]. rewrite match_here_once.
    destruct s as [|c s]; [reflexivity|].
    cbn [startswith_ignorecase]. unfold chr_ignorecase.
    destruct (ignorecase_eq p c); [|reflexivity].
    fold (word_ignorecase kw). rewrite IH. cbn [andb].
    destruct (startswith_ignorecase kw s); reflexivity.
Qed.

Lemma re_search_anchor (kw s : str) :
  re_search (word_ignorecase kw ++ [between 0 1800 cls_any]) s =
  match find_ignorecase kw s with
  | Some i => Some (i, length kw + Nat.min (length s - i - length kw) 1800)
  | None => None
  end.
Proof.
  induction s as [|c s IH]; cbn [re_search find_ignorecase];
    rewrite match_here_anchor.
  - destruct (startswith_ignorecase kw []); reflexivity.
  - destruct (startswith_ignorecase kw (c :: s)).
    + now rewrite Nat.sub_0_r.
    + rewrite IH. destruct (find_ignorecase kw s); reflexivity.
Qed.

Lemma find_ignorecase_le (kw s : str) (i : nat) :
  find_ignorecase kw s = Some i ->
  i <= length s /\ startswith_ignorecase kw (skipn i s) = true.
Proof.
  revert i; induction s as [|c s IH]; intros i; cbn [find_ignorecase].
  - destruct (startswith_ignorecase kw []) eqn:E; try discriminate.
    intros H; inversion H; subst. split; auto.
  - destruct (startswith_ignorecase kw (c :: s)) eqn:E.
    + intros H; inversion H; subst. split; auto. lia.
    + destruct (find_ignorecase kw s) as [j|]; try discriminate.
      intros H; inversion H; subst.
      destruct (IH j eq_refl). split; auto. simpl. lia.
Qed.

Lemma startswith_ignorecase_length (kw s : str) :
  startswith_ignorecase kw s = true -> length kw <= length s.
Proof.
  revert s; induction kw as [|p kw IH]; intros [|c s]; simpl; try lia;
    try discriminate.
  intros H. apply andb_true_iff in H as [_ H]. apply IH in H. lia.
Qed.

(** The pattern table and the table of anchor words agree. *)
Lemma patterns_anchor (key kw : str) :
  In (key, kw) anchors ->
  dict_get patterns key =
  Some (word_ignorecase kw ++ [between 0 1800 cls_any]) /\ length kw <= 12.
Proof.
  intros [H|[H|[H|[]]]]; inversion H; subst; split; vm_compute; auto; lia.
Qed.

Lemma patterns_supported (key : str) :
  ~ In key supported -> dict_get patterns key = None.
Proof.
  intros H. unfold patterns. cbn [dict_get].
  repeat match goal with
  | |- context [str_eqb ?k key] =>
      let E := fresh "E" in
      destruct (str_eqb k key) eqn:E;
      [apply str_eqb_eq in E; exfalso; apply H; rewrite <- E;
       unfold supported, anchors; simpl; auto|]
  end.
  reflexivity.
Qed.

Lemma find_relevant_section_supported (text ct kw : str) :
  In (lower ct, kw) anchors ->
  find_relevant_section text ct = locate_spec kw text.
Proof.
  intros H. apply patterns_anchor in H as [H _].
  unfold find_relevant_section, locate_spec, slice_to. rewrite H, re_search_anchor.
  destruct (find_ignorecase kw text) as [i|] eqn:E; [|reflexivity].
  apply find_ignorecase_le in E as [Hi Hs].
  apply startswith_ignorecase_length in Hs. rewrite length_skipn in Hs.
  destruct (Nat.le_gt_cases (length text - i - length kw) 1800) as [Hle|Hgt].
  - rewrite Nat.min_l by lia.
    rewrite !firstn_all2; auto; rewrite length_skipn; lia.
  - rewrite Nat.min_r by lia. reflexivity.
Qed.

(** What [find_ignorecase] finds: an occurrence of the word, and the first. *)
Lemma startswith_ignorecase_spells (kw s : str) :
  startswith_ignorecase kw s = true <->
  exists m rest, s = m ++ rest /\ spells kw m.
Proof.
  revert s; induction kw as [|p kw IH]; intros s.
  - split; auto. intros _. exists [], s. split; auto. constructor.
  - destruct s as [|c s]; simpl.
    + split; try discriminate. intros (m & rest & H & Hs).
      inversion Hs; subst. discriminate.
    + rewrite andb_true_iff, IH. split.
      * intros (Hc & m & rest & -> & Hs). exists (c :: m), rest.
        split; auto. constructor; auto.
      * intros (m & rest & H & Hs). inversion Hs; subst.
        inversion H; subst. split; auto. eauto.
Qed.

Lemma find_ignorecase_first (kw s : str) (i : nat) :
  find_ignorecase kw s = Some i ->
  occurs_at kw s i /\ forall j, j < i -> ~ occurs_at kw s j.
Proof.
  unfold occurs_at.
  revert i; induction s as [|c s IH]; intros i; cbn [find_ignorecase].
  - destruct (startswith_ignorecase kw []) eqn:E; try discriminate.
    intros H; inversion H; subst. split; [|intros; lia].
    now apply startswith_ignorecase_spells.
  - destruct (startswith_ignorecase kw (c :: s)) eqn:E.
    + intros H; inversion H; subst. split; [|intros; lia].
      now apply startswith_ignorecase_spells.
    + destruct (find_ignorecase kw s) as [i'|]; try discriminate.
      intros H; inversion H; subst. destruct (IH i' eq_refl) as [H1 H2].
      split; auto. intros [|j] Hj.
      * intros Hocc. apply startswith_ignorecase_spells in Hocc.
        simpl in Hocc. congruence.
      * apply H2. lia.
Qed.

Lemma find_ignorecase_nowhere (kw s : str) :
  find_ignorecase kw s = None -> forall j, ~ occurs_at kw s j.
Proof.
  unfold occurs_at.
  induction s as [|c s IH]; cbn [find_ignorecase].
  - destruct (startswith_ignorecase kw []) eqn:E; try discriminate.
    intros _ j Hocc. rewrite skipn_nil in Hocc.
    apply startswith_ignorecase_spells in Hocc. congruence.
  - destruct (startswith_ignorecase kw (c :: s)) eqn:E; try discriminate.
    destruct (find_ignorecase kw s) as [i'|]; try discriminate.
    intros _ [|j] Hocc.
    + apply startswith_ignorecase_spells in Hocc. simpl in Hocc. congruence.
    + now apply (IH eq_refl j).
Qed.

(** The window of the description, read off a decomposition of the text. *)
Lemma locate_spec_found (kw pre m rest : str) :
  spells kw m ->
  (forall j, j < length pre -> ~ occurs_at kw (pre ++ m ++ rest) j) ->
  locate_spec kw (pre ++ m ++ rest) = m ++ firstn 1800 rest.
Proof.
  intros Hs Hfirst. unfold locate_spec.
  assert (Hl : length m = length kw).
  { symmetry. eapply Forall2_length; eauto. }
  assert (Hocc : occurs_at kw (pre ++ m ++ rest) (length pre)).
  { exists m, rest. split; auto.
    rewrite skipn_app, skipn_all, Nat.sub_diag. reflexivity. }
  destruct (find_ignorecase kw (pre ++ m ++ rest)) as [i|] eqn:E.
  - destruct (find_ignorecase_first _ _ E) as [H1 H2].
    assert (i = length pre).
    { destruct (Nat.lt_trichotomy i (length pre)) as [Hlt|[Heq|Hgt]]; auto.
      - exfalso. now apply (Hfirst i).
      - exfalso. now apply (H2 (length pre)). }
    subst i. rewrite skipn_app, skipn_all, Nat.sub_diag. simpl skipn.
    simpl app. rewrite firstn_app, <- Hl.
    rewrite firstn_all2 by lia.
    replace (length m + 1800 - length m) with 1800 by lia. reflexivity.
  - exfalso. eapply find_ignorecase_nowhere; eauto.
Qed.

Lemma locate_spec_absent (kw text : str) :
  (forall j, ~ occurs_at kw text j) -> locate_spec kw text = firstn 2000 text.
Proof.
  intros H. unfold locate_spec.
  destruct (find_ignorecase kw text) as [i|] eqn:E; auto.
  destruct (find_ignorecase_first _ _ E) as [H1 _]. now apply H in H1.
Qed.

Lemma supported_dec (key : str) : {In key supported} + {~ In key supported}.
Proof. apply in_dec, list_eq_dec, N.eq_dec. Qed.

Lemma supported_anchor (key : str) :
  In key supported -> exists kw, In (key, kw) anchors.
Proof.
  unfold supported. rewrite in_map_iff. intros ([k kw] & <- & H). eauto.
Qed.

Lemma find_relevant_section_unsupported (text ct : str) :
  ~ In (lower ct) supported -> find_relevant_section text ct = firstn 2000 text.
Proof.
  intros H. unfold find_relevant_section.
  now rewrite (patterns_supported H).
Qed.

(** ** The case rule, read without the pattern engine *)

Lemma ignorecase_eq_letter (p c : N) :
  plain_letter p = true -> (ignorecase_eq p c = true <-> same_letter p c).
Proof.
  unfold plain_letter, ignorecase_eq, ignorecase_extra, same_letter,
    ascii_tolower, is_ascii_lower, is_ascii_upper.
  intros H.
  repeat (progress rewrite ?andb_true_iff, ?negb_true_iff, ?N.leb_le,
            ?N.eqb_neq in H).
  destruct H as [[[H1 H2] H3] H4].
  assert (Hp : ((0x41 <=? p) && (p <=? 0x5A))%N = false).
  { apply andb_false_iff. right. apply N.leb_gt. lia. }
  rewrite Hp.
  assert (H1' : (0x61 <=? p)%N = true) by (apply N.leb_le; lia).
  assert (H2' : (p <=? 0x7A)%N = true) by (apply N.leb_le; lia).
  assert (H3' : (p =? 0x6B)%N = false) by (apply N.eqb_neq; lia).
  assert (H4' : (p =? 0x73)%N = false) by (apply N.eqb_neq; lia).
  rewrite H1', H2', H3', H4'. cbn [andb orb].
  rewrite !orb_false_r.
  destruct ((0x41 <=? c) && (c <=? 0x5A))%N eqn:E.
  - apply andb_true_iff in E as [E1 E2]. apply N.leb_le in E1, E2.
    repeat (progress rewrite ?orb_true_iff, ?andb_true_iff, ?N.eqb_eq).
    lia.
  - repeat (progress rewrite ?orb_true_iff, ?andb_true_iff, ?N.eqb_eq).
    apply andb_false_iff in E.
    destruct E as [E|E]; apply N.leb_gt in E; lia.
Qed.

Lemma spells_letters (kw : str) :
  forallb plain_letter kw = true ->
  forall m, spells kw m <-> Forall2 same_letter kw m.
Proof.
  unfold spells. induction kw as [|p kw IH]; intros Hk m.
  - split; intros H; inversion H; constructor.
  - cbn [forallb] in Hk. apply andb_true_iff in Hk as [Hp Hk].
    split; intros H; inversion H; subst; constructor.
    + now apply (proj1 (@ignorecase_eq_letter p _ Hp)).
    + now apply (proj1 (IH Hk _)).
    + now apply (proj2 (@ignorecase_eq_letter p _ Hp)).
    + now apply (proj2 (IH Hk _)).
Qed.

Lemma lowered_letters (kw m : str) :
  map ascii_tolower m = kw -> Forall2 same_letter kw m.
Proof.
  intros <-. induction m as [|c m IH]; constructor; auto. now left.
Qed.

(** On ASCII letters the case rule is the comparison of the lowered letter. *)
Lemma ignorecase_eq_ascii (p c : N) :
  is_ascii_lower p = true -> is_ascii c = true ->
  ignorecase_eq p c = (p =? ascii_tolower c)%N.
Proof.
  unfold ignorecase_eq, ignorecase_extra, ascii_tolower, is_ascii_lower,
    is_ascii_upper, is_ascii.
  intros Hp Hc. apply andb_true_iff in Hp as [H1 H2].
  apply N.leb_le in H1, H2. apply N.ltb_lt in Hc.
  assert (Hu : ((0x41 <=? p) && (p <=? 0x5A))%N = false).
  { apply andb_false_iff. right. apply N.leb_gt. lia. }
  rewrite Hu.
  assert (H1' : (0x61 <=? p)%N = true) by (apply N.leb_le; lia).
  assert (H2' : (p <=? 0x7A)%N = true) by (apply N.leb_le; lia).
  rewrite H1', H2'. cbn [andb].
  assert (E1 : (c =? 0x130)%N = false) by (apply N.eqb_neq; lia).
  assert (E2 : (c =? 0x131)%N = false) by (apply N.eqb_neq; lia).
  assert (E3 : (c =? 0x212A)%N = false) by (apply N.eqb_neq; lia).
  assert (E4 : (c =? 0x17F)%N = false) by (apply N.eqb_neq; lia).
  rewrite E1, E2, E3, E4. cbn [orb]. rewrite !andb_false_r. cbn [orb].
  rewrite !orb_false_r.
  destruct ((0x41 <=? c) && (c <=? 0x5A))%N eqn:E.
  - apply andb_true_iff in E as [Ea Eb]. apply N.leb_le in Ea, Eb.
    assert (Hne : (c =? p)%N = false) by (apply N.eqb_neq; lia).
    rewrite Hne. cbn [orb]. apply N.eqb_sym.
  - apply andb_false_iff in E.
    assert (Hne : (c + 32 =? p)%N = false \/ (c =? p)%N = true).
    { destruct (c + 32 =? p)%N eqn:E'; auto. apply N.eqb_eq in E'.
      exfalso. destruct E as [E|E]; apply N.leb_gt in E; lia. }
    destruct Hne as [Hne|Hne].
    + rewrite Hne, orb_false_r. apply N.eqb_sym.
    + rewrite Hne. cbn [orb]. symmetry. rewrite N.eqb_sym. exact Hne.
Qed.

Lemma startswith_ignorecase_lowered (kw : str) :
  forallb is_ascii_lower kw = true ->
  forall s, forallb is_ascii s = true ->
  startswith_ignorecase kw s = startswith kw (map ascii_tolower s).
Proof.
  induction kw as [|p kw IH]; intros Hk s Hs; [reflexivity|].
  cbn [forallb] in Hk. apply andb_true_iff in Hk as [Hp Hk].
  destruct s as [|c s]; [reflexivity|].
  cbn [forallb] in Hs. apply andb_true_iff in Hs as [Hc Hs].
  cbn [startswith_ignorecase startswith map].
  now rewrite (ignorecase_eq_ascii _ _ Hp Hc), (IH Hk s Hs).
Qed.

Lemma find_ignorecase_lowered (kw s : str) :
  forallb is_ascii_lower kw = true -> forallb is_ascii s = true ->
  find_ignorecase kw s = find_exact kw (map ascii_tolower s).
Proof.
  intros Hk. induction s as [|c s IH]; intros Hs.
  - cbn [find_ignorecase find_exact map].
    now rewrite (startswith_ignorecase_lowered _ Hk [] eq_refl).
  - cbn [find_ignorecase find_exact].
    rewrite (startswith_ignorecase_lowered _ Hk _ Hs).
    cbn [forallb] in Hs. apply andb_true_iff in Hs as [_ Hs].
    cbn [map]. now rewrite (IH Hs).
Qed.

Lemma anchors_letters (key kw : str) :
  In (key, kw) anchors ->
  forallb plain_letter kw = true /\ forallb is_ascii_lower kw = true.
Proof.
  intros [H|[H|[H|[]]]]; inversion H; subst; split; vm_compute; reflexivity.
Qed.

(** C2: for a supported clause type, the locator returns, from the first
    occurrence of the type's anchor word up to case, the word and at most the
    1800 characters after it, and the first 2000 characters of the text when
    the word occurs nowhere.  Up to case: a run of letters spells the anchor
    word exactly when, letter by letter, it has the letter of the word or
    its capital (or, for [i], one of the two letters Unicode folds to it),
    so every run whose lowering is the word spells it; and on a text of
    ASCII characters the window is the one cut where the word first occurs
    in the lowered text. *)
Theorem find_relevant_section_locates (text ct kw : str) :
  In (lower ct, kw) anchors ->
  find_relevant_section text ct = locate_spec kw text /\
  (forall pre m rest,
      text = pre ++ m ++ rest -> spells kw m ->
      (forall j, j < length pre -> ~ occurs_at kw text j) ->
      find_relevant_section text ct = m ++ firstn 1800 rest) /\
  ((forall j, ~ occurs_at kw text j) ->
   find_relevant_section text ct = firstn 2000 text) /\
  (forall m, spells kw m <-> Forall2 same_letter kw m) /\
  (forall m, map ascii_tolower m = kw -> spells kw m) /\
  (forallb is_ascii text = true ->
   find_relevant_section text ct = locate_lowered kw text).
Proof.
  intros H. rewrite (find_relevant_section_supported text ct H).
  destruct (anchors_letters H) as [Hp Hl].
  split; [reflexivity|]. split; [|split; [|split; [|split]]].
  - intros pre m rest -> Hs Hf. now apply locate_spec_found.
  - apply locate_spec_absent.
  - apply spells_letters, Hp.
  - intros m Hm. apply (spells_letters _ Hp), lowered_letters, Hm.
  - intros Ha. unfold locate_spec, locate_lowered.
    now rewrite (find_ignorecase_lowered _ _ Hl Ha).
Qed.

(** C5: the window is never longer than 2000 characters, and when the anchor
    word of a supported type is found it is at most the word and 1800
    characters. *)
Theorem find_relevant_section_length (text ct : str) :
  length (find_relevant_section text ct) <= 2000 /\
  forall kw, In (lower ct, kw) anchors -> find_ignorecase kw text <> None ->
             length (find_relevant_section text ct) <= 1800 + length kw.
Proof.
  assert (Hk : forall kw, In (lower ct, kw) anchors ->
               find_ignorecase kw text <> None ->
               length (find_relevant_section text ct) <= 1800 + length kw).
  { intros kw H Hf. rewrite (find_relevant_section_supported text ct H).
    unfold locate_spec. destruct (find_ignorecase kw text); try congruence.
    rewrite length_firstn. lia. }
  split; auto.
  destruct (supported_dec (lower ct)) as [Hin|Hout].
  - destruct (supported_anchor Hin) as [kw H].
    destruct (find_ignorecase kw text) as [i|] eqn:E.
    + assert (Hf : find_ignorecase kw text <> None) by congruence.
      specialize (Hk kw H Hf). apply patterns_anchor in H as [_ Hlen]. lia.
    + rewrite (find_relevant_section_supported text ct H).
      unfold locate_spec. rewrite E, length_firstn. lia.
  - rewrite find_relevant_section_unsupported by assumption.
    rewrite length_firstn. lia.
Qed.

(** C9: whatever the clause type, the window is a contiguous part of the
    text: the first 2000 characters, or a span that starts where the anchor
    word of the type first occurs. *)
Theorem find_relevant_section_part (text ct : str) :
  (exists pre post, text = pre ++ find_relevant_section text ct ++ post) /\
  (find_relevant_section text ct = firstn 2000 text \/
   exists kw i, In (lower ct, kw) anchors /\ find_ignorecase kw text = Some i /\
                find_relevant_section text ct
                = firstn (length kw + 1800) (skipn i text)).
Proof.
  assert (Hpart : forall n i, exists pre post,
             text = pre ++ firstn n (skipn i text) ++ post).
  { intros n i. exists (firstn i text), (skipn n (skipn i text)).
    now rewrite !firstn_skipn. }
  destruct (supported_dec (lower ct)) as [Hin|Hout].
  - destruct (supported_anchor Hin) as [kw H].
    rewrite (find_relevant_section_supported text ct H). unfold locate_spec.
    destruct (find_ignorecase kw text) as [i|] eqn:E.
    + split; auto. right. exists kw, i. auto.
    + split; auto. apply (Hpart 2000 0).
  - rewrite find_relevant_section_unsupported by assumption.
    split; auto. apply (Hpart 2000 0).
Qed.

Lemma lower_ascii (s : str) :
  forallb is_ascii s = true -> lower (map ascii_tolower s) = lower s.
Proof.
  intros H. unfold lower. rewrite H.
  assert (Ha : forall c, is_ascii c = true -> is_ascii (ascii_tolower c) = true).
  { intros c. unfold is_ascii, ascii_tolower, is_ascii_upper.
    rewrite N.ltb_lt. intros Hc.
    destruct (0x41 <=? c)%N eqn:E1; destruct (c <=? 0x5A)%N eqn:E2; simpl;
      apply N.ltb_lt; try lia.
    apply N.leb_le in E2. lia. }
  assert (Hi : forall c, ascii_tolower (ascii_tolower c) = ascii_tolower c).
  { intros c. unfold ascii_tolower. destruct (is_ascii_upper c) eqn:E.
    - assert (E' : is_ascii_upper (c + 32) = false).
      { unfold is_ascii_upper in *. apply andb_true_iff in E as [E1 E2].
        apply N.leb_le in E1, E2. apply andb_false_iff. right.
        apply N.leb_gt. lia. }
      now rewrite E'.
    - now rewrite E. }
  assert (Hall : forallb is_ascii (map ascii_tolower s) = true).
  { rewrite forallb_forall in *. intros c Hc. apply in_map_iff in Hc as (d & <- & Hd).
    auto. }
  rewrite Hall. rewrite map_map. apply map_ext. auto.
Qed.

(** C10: a clause type that is none of the three once lower-cased gets the
    first 2000 characters of the text, whatever the text contains; the type
    is only looked at through its lower case, so the case of an (ASCII) type
    does not matter. *)
Theorem find_relevant_section_other_type (text ct : str) :
  (~ In (lower ct) supported ->
   find_relevant_section text ct = firstn 2000 text) /\
  (forall ct', lower ct' = lower ct ->
   find_relevant_section text ct' = find_relevant_section text ct) /\
  (forallb is_ascii ct = true ->
   find_relevant_section text (map ascii_tolower ct)
   = find_relevant_section text ct).
Proof.
  split; [apply find_relevant_section_unsupported|].
  assert (H : forall ct', lower ct' = lower ct ->
              find_relevant_section text ct' = find_relevant_section text ct).
  { intros ct' E. unfold find_relevant_section. now rewrite E. }
  split; auto. intros Ha. apply H. now apply lower_ascii.
Qed.

(* ================================================================== *)
(** * LLM gateway: properties *)

Lemma lstrip_spaces (s : str) :
  exists a, s = a ++ lstrip s /\ forallb isspace a = true.
Proof.
  induction s as [|c s (a & IH & Ha)]; simpl.
  - now exists [].
  - destruct (isspace c) eqn:E.
    + exists (c :: a). simpl. rewrite E, Ha. split; auto. now f_equal.
    + now exists [].
Qed.

Lemma forallb_rev (p : N -> bool) (s : str) :
  forallb p (rev s) = forallb p s.
Proof.
  induction s as [|c s IH]; simpl; auto.
  rewrite forallb_app, IH. simpl. rewrite andb_true_r. apply andb_comm.
Qed.

Lemma rstrip_spaces (s : str) :
  exists b, s = rstrip s ++ b /\ forallb isspace b = true.
Proof.
  unfold rstrip. destruct (lstrip_spaces (rev s)) as (a & H & Ha).
  exists (rev a). split.
  - rewrite <- rev_app_distr, <- H. now rewrite rev_involutive.
  - now rewrite forallb_rev.
Qed.

(** [strip] removes the white space at the two ends and nothing else. *)
Lemma strip_trimmed (s : str) : trimmed_of s (strip s).
Proof.
  unfold trimmed_of, strip.
  destruct (lstrip_spaces s) as (a & Ha & Hsa).
  destruct (rstrip_spaces (lstrip s)) as (b & Hb & Hsb).
  exists a, b. repeat split; auto.
  - now rewrite <- Hb.
  - pose proof (run_app_le isspace (rstrip (lstrip s)) b) as Hle.
    rewrite <- Hb, lstrip_head in Hle. lia.
  - unfold rstrip. rewrite rev_involutive. apply lstrip_head.
Qed.

Lemma call_groq_unfold (system_prompt user_prompt : str) (max_tokens : nat)
      (st : state) :
  call_groq system_prompt user_prompt max_tokens st =
  let req := groq_request system_prompt user_prompt max_tokens in
  let failed e := (Ok [], State (stdout st ++ [lit "Groq Error: " ++ e])
                                (sent st ++ [req]) (written st)) in
  match llm_service (sent st) req with
  | Ok (Some content :: _) =>
      (Ok (strip content), State (stdout st) (sent st ++ [req]) (written st))
  | Ok (None :: _) => failed AttributeError
  | Ok [] => failed IndexError
  | Raise e => failed e
  end.
Proof.
  unfold call_groq, try_except, bind, chat_completions_create, groq_request.
  cbv zeta.
  destruct (llm_service _ _) as [[|[content|] others]|e]; reflexivity.
Qed.

(** The gateway always returns, and leaves the files alone. *)
Lemma call_groq_returns (system_prompt user_prompt : str) (max_tokens : nat)
      (st : state) :
  exists out st',
    call_groq system_prompt user_prompt max_tokens st = (Ok out, st') /\
    sent st' = sent st ++ [groq_request system_prompt user_prompt max_tokens] /\
    written st' = written st /\
    (forall line, In line (stdout st) -> In line (stdout st')) /\
    (call_failed (llm_service (sent st)
                    (groq_request system_prompt user_prompt max_tokens)) = true ->
     out = []).
Proof.
  rewrite call_groq_unfold. cbv zeta.
  destruct (llm_service _ _) as [[|[content|] others]|e];
    eexists; eexists; (split; [reflexivity|]); cbn [sent written stdout];
    repeat split; auto; try (intros line Hl; apply in_or_app; auto);
    cbn; discriminate.
Qed.

(** C3: the gateway never raises.  When the underlying call fails (the
    service raises, or its response is malformed) it prints a line and returns
    the empty string; when the call succeeds it returns the content without
    the white space at its two ends. *)
Theorem call_groq_fail_soft (system_prompt user_prompt : str) (max_tokens : nat)
        (st : state) :
  let req := groq_request system_prompt user_prompt max_tokens in
  (exists out st',
      call_groq system_prompt user_prompt max_tokens st = (Ok out, st')) /\
  (call_failed (llm_service (sent st) req) = true ->
   exists e,
     call_groq system_prompt user_prompt max_tokens st =
     (Ok [], State (stdout st ++ [lit "Groq Error: " ++ e])
                   (sent st ++ [req]) (written st)) /\
     (forall e', llm_service (sent st) req = Raise e' -> e = e')) /\
  (forall content others,
      llm_service (sent st) req = Ok (Some content :: others) ->
      call_groq system_prompt user_prompt max_tokens st =
      (Ok (strip content), State (stdout st) (sent st ++ [req]) (written st)) /\
      trimmed_of content (strip content)).
Proof.
  cbv zeta. rewrite call_groq_unfold. cbv zeta.
  repeat split.
  - destruct (llm_service _ _) as [[|[content|] others]|e]; eauto.
  - destruct (llm_service _ _) as [[|[content|] others]|e]; cbn;
      try discriminate; intros _; eexists; (split; [reflexivity|]);
      intros e' He'; congruence.
  - now rewrite H.
  - apply strip_trimmed.
Qed.

(* ================================================================== *)
(** * Summariser: properties *)

Lemma firstn_firstn_same (n : nat) (s : str) :
  firstn n (firstn n s) = firstn n s.
Proof. rewrite firstn_firstn. now rewrite Nat.min_id. Qed.

(** C8: the summariser puts the first 5000 characters of the text, and
    nothing of the rest, in its prompt; it makes one call to the gateway,
    with a ceiling of 400 tokens, and returns what the gateway returns. *)
Theorem summarize_contract_call (full_text : str) (st : state) :
  let short := firstn 5000 full_text in
  summarize_contract full_text st
  = call_groq SUMMARY_SYSTEM_PROMPT (summary_prompt short) 400 st /\
  sent (snd (summarize_contract full_text st))
  = sent st ++ [groq_request SUMMARY_SYSTEM_PROMPT (summary_prompt short) 400] /\
  length short <= 5000 /\
  (length full_text <= 5000 -> short = full_text) /\
  (forall other, firstn 5000 other = short ->
                 summarize_contract other st = summarize_contract full_text st).
Proof.
  cbv zeta.
  assert (E : forall t, summarize_contract t st
              = call_groq SUMMARY_SYSTEM_PROMPT (summary_prompt (firstn 5000 t))
                          400 st) by reflexivity.
  split; [apply E|]. split; [|split; [|split]].
  - rewrite E.
    destruct (call_groq_returns SUMMARY_SYSTEM_PROMPT
                (summary_prompt (firstn 5000 full_text)) 400 st)
      as (out & st' & Hc & Hs & _).
    now rewrite Hc.
  - rewrite length_firstn. lia.
  - intros Hl. now apply firstn_all2.
  - intros other Ho. now rewrite !E, Ho.
Qed.

(* ================================================================== *)
(** * Document pipeline: properties *)

Lemma bind_ok {A B} (m : M A) (k : A -> M B) (st st' : state) (a : A) :
  m st = (Ok a, st') -> bind m k st = k a st'.
Proof. unfold bind. now intros ->. Qed.

Lemma bind_raise {A B} (m : M A) (k : A -> M B) (st st' : state) (e : exc) :
  m st = (Raise e, st') -> bind m k st = (Raise e, st').
Proof. unfold bind. now intros ->. Qed.

Lemma extract_pages_ok (pages : list (result (option str))) :
  forallb (fun page => match page with Ok _ => true | Raise _ => false end)
          pages = true ->
  forall parts st, exists parts', extract_pages pages parts st = (Ok parts', st).
Proof.
  induction pages as [|[t|e] pages IH]; cbn [forallb andb extract_pages];
    intros H parts st.
  - eexists; reflexivity.
  - apply IH, H.
  - discriminate.
Qed.

Lemma extract_pages_raise (pages : list (result (option str))) :
  forallb (fun page => match page with Ok _ => true | Raise _ => false end)
          pages = false ->
  forall parts st, exists e, extract_pages pages parts st = (Raise e, st).
Proof.
  induction pages as [|[t|e] pages IH]; cbn [forallb andb extract_pages];
    intros H parts st.
  - discriminate.
  - apply IH, H.
  - eexists; reflexivity.
Qed.

Lemma extract_text_readable (p : Path) (st : state) :
  readable p = true ->
  exists raw, extract_text_from_pdf p st = (Ok raw, st).
Proof.
  unfold readable, extract_text_from_pdf.
  destruct (pdfplumber_open p) as [pages|e]; try discriminate.
  intros H. destruct (extract_pages_ok pages H [] st) as [parts Hp].
  rewrite (bind_ok _ _ _ Hp). eexists; reflexivity.
Qed.

Lemma extract_text_unreadable (p : Path) (st : state) :
  readable p = false ->
  exists e, extract_text_from_pdf p st = (Raise e, st).
Proof.
  unfold readable, extract_text_from_pdf.
  destruct (pdfplumber_open p) as [pages|e]; [|intros _; eexists; reflexivity].
  intros H. destruct (extract_pages_raise pages H [] st) as [e Hp].
  rewrite (bind_raise _ _ _ Hp). eexists; reflexivity.
Qed.

Lemma gateway_step (system_prompt user_prompt : str) (max_tokens : nat)
      (st : state) :
  exists out st',
    call_groq system_prompt user_prompt max_tokens st = (Ok out, st') /\
    written st' = written st /\
    (forall line, In line (stdout st) -> In line (stdout st')) /\
    (service_down -> out = []).
Proof.
  destruct (call_groq_returns system_prompt user_prompt max_tokens st)
    as (out & st' & Hc & _ & Hw & Hl & Hf).
  exists out, st'. repeat split; auto.
Qed.

(** A document that cannot be read gives an exception and no record; the
    state is as before. *)
Lemma process_contract_unreadable (p : Path) (st : state) :
  readable p = false -> exists e, process_contract p st = (Raise e, st).
Proof.
  intros H. destruct (extract_text_unreadable p st H) as [e He].
  exists e. unfold process_contract. now rewrite (bind_raise _ _ _ He).
Qed.

(** A document that can be read gives its record, whatever the gateway
    answers. *)
Lemma process_contract_readable (p : Path) (st : state) :
  readable p = true ->
  exists summary termination confidentiality liability st',
    process_contract p st =
    (Ok [ (lit "contract_id", Some (stem p));
          (lit "summary", Some summary);
          (lit "termination", Some termination);
          (lit "confidentiality", Some confidentiality);
          (lit "liability", Some liability) ], st') /\
    written st' = written st /\
    (forall line, In line (stdout st) -> In line (stdout st')) /\
    (service_down ->
     summary = [] /\ termination = [] /\ confidentiality = [] /\ liability = []).
Proof.
  intros H. destruct (extract_text_readable p st H) as [raw Hraw].
  unfold process_contract. rewrite (bind_ok _ _ _ Hraw).
  unfold extract_clause, summarize_contract.
  match goal with |- context [bind (call_groq ?a ?b ?c) _ st] =>
    destruct (gateway_step a b c st) as (t & st1 & E1 & W1 & L1 & D1) end.
  rewrite (bind_ok _ _ _ E1).
  match goal with |- context [bind (call_groq ?a ?b ?c) _ st1] =>
    destruct (gateway_step a b c st1) as (c' & st2 & E2 & W2 & L2 & D2) end.
  rewrite (bind_ok _ _ _ E2).
  match goal with |- context [bind (call_groq ?a ?b ?c) _ st2] =>
    destruct (gateway_step a b c st2) as (l & st3 & E3 & W3 & L3 & D3) end.
  rewrite (bind_ok _ _ _ E3).
  match goal with |- context [bind (call_groq ?a ?b ?c) _ st3] =>
    destruct (gateway_step a b c st3) as (s & st4 & E4 & W4 & L4 & D4) end.
  rewrite (bind_ok _ _ _ E4).
  exists s, t, c', l, st4. split; [reflexivity|].
  split; [congruence|]. split; auto.
Qed.

Lemma record_of_fields (p : Path) (s t c l : str) :
  record_of p [ (lit "contract_id", Some (stem p)); (lit "summary", Some s);
                (lit "termination", Some t); (lit "confidentiality", Some c);
                (lit "liability", Some l) ].
Proof.
  unfold record_of. split; [reflexivity|]. split; [reflexivity|].
  repeat constructor; discriminate.
Qed.

(** The loop of [main]: every readable document adds its record, in order;
    every other document adds a line to the output and nothing else; the loop
    itself never raises. *)
Lemma main_loop_runs (pdfs : list Path) :
  forall rows st,
  exists new st',
    main_loop pdfs rows st = (Ok (rows ++ new), st') /\
    Forall2 record_of (filter readable pdfs) new /\
    written st' = written st /\
    (forall line, In line (stdout st) -> In line (stdout st')) /\
    (forall p, In p pdfs -> readable p = false ->
       exists e, In (lit "Error processing " ++ name p ++ lit ": " ++ e)
                    (stdout st')) /\
    (service_down -> new = map empty_record (filter readable pdfs)).
Proof.
  induction pdfs as [|p pdfs IH]; intros rows st.
  - exists [], st. rewrite app_nil_r. split; [reflexivity|].
    split; [constructor|]. split; [reflexivity|]. split; [auto|].
    split; [intros p []|reflexivity].
  - cbn [main_loop filter]. destruct (readable p) eqn:Hr.
    + destruct (process_contract_readable p st Hr)
        as (s & t & c & l & st1 & Hp & Hw & Hl & Hd).
      set (r := [ (lit "contract_id", Some (stem p)); (lit "summary", Some s);
                  (lit "termination", Some t); (lit "confidentiality", Some c);
                  (lit "liability", Some l) ]) in *.
      assert (Hstep : try_except (bind (process_contract p)
                                       (fun r0 => ret (rows ++ [r0])))
                        (fun e => bind (print (lit "Error processing " ++ name p
                                               ++ lit ": " ++ e))
                                       (fun _ => ret rows)) st
                      = (Ok (rows ++ [r]), st1)).
      { unfold try_except. now rewrite (bind_ok _ _ _ Hp). }
      rewrite (bind_ok _ _ _ Hstep).
      destruct (IH (rows ++ [r]) st1) as (new & st' & Hm & Hf & Hw' & Hl' & He & Hd').
      exists (r :: new), st'. rewrite Hm, <- app_assoc. split; [reflexivity|].
      split; [constructor; auto; apply record_of_fields|].
      split; [congruence|]. split; [auto|]. split.
      * intros q [<-|Hq] Hq'; [congruence|auto].
      * intros Hdown. destruct (Hd Hdown) as (-> & -> & -> & ->).
        now rewrite (Hd' Hdown).
    + destruct (process_contract_unreadable p st Hr) as [e Hp].
      set (line := lit "Error processing " ++ name p ++ lit ": " ++ e).
      set (st1 := State (stdout st ++ [line]) (sent st) (written st)).
      assert (Hstep : try_except (bind (process_contract p)
                                       (fun r0 => ret (rows ++ [r0])))
                        (fun e => bind (print (lit "Error processing " ++ name p
                                               ++ lit ": " ++ e))
                                       (fun _ => ret rows)) st
                      = (Ok rows, st1)).
      { unfold try_except. now rewrite (bind_raise _ _ _ Hp). }
      rewrite (bind_ok _ _ _ Hstep).
      destruct (IH rows st1) as (new & st' & Hm & Hf & Hw' & Hl' & He & Hd').
      exists new, st'. split; [assumption|]. split; [assumption|].
      split; [assumption|]. split.
      * intros l Hin. apply Hl'. unfold st1; simpl. apply in_or_app; auto.
      * split; [|assumption].
        intros q [<-|Hq] Hq'; [|auto].
        exists e. apply Hl'. unfold st1; simpl. apply in_or_app. right.
        now left.
Qed.

(** ** The order of the documents *)

Lemma str_leb_total (a b : str) : str_leb a b = false -> str_leb b a = true.
Proof.
  revert b; induction a as [|x a IH]; intros [|y b]; simpl; auto;
    try discriminate.
  intros H. apply orb_false_iff in H as [H1 H2].
  apply N.ltb_ge in H1.
  destruct (x =? y)%N eqn:E.
  - apply N.eqb_eq in E. subst y. simpl in H2. rewrite N.eqb_refl, (IH _ H2).
    apply orb_true_r.
  - apply N.eqb_neq in E. apply orb_true_iff. left. apply N.ltb_lt. lia.
Qed.

Lemma insert_sorted_perm (p : Path) (l : list Path) :
  Permutation (p :: l) (insert_sorted p l).
Proof.
  induction l as [|q l IH]; simpl; auto.
  destruct (str_leb (name p) (name q)); auto.
  eapply perm_trans; [apply perm_swap|]. now constructor.
Qed.

Lemma sorted_perm (l : list Path) : Permutation l (sorted l).
Proof.
  induction l as [|p l IH]; simpl; auto.
  eapply perm_trans; [|apply insert_sorted_perm]. now constructor.
Qed.

Lemma insert_sorted_ordered (p : Path) (l : list Path) :
  Sorted name_le l -> Sorted name_le (insert_sorted p l).
Proof.
  induction l as [|q l IH]; intros Hs; simpl.
  - repeat constructor.
  - destruct (str_leb (name p) (name q)) eqn:E.
    + constructor; [assumption|constructor; exact E].
    + inversion Hs as [|? ? Hl Hh]; subst. constructor; [now apply IH|].
      destruct l as [|r l]; simpl.
      * constructor. now apply str_leb_total.
      * destruct (str_leb (name p) (name r)).
        -- constructor. now apply str_leb_total.
        -- inversion Hh; subst. now constructor.
Qed.

(** The documents are processed in the order of their names, each once. *)
Lemma documents_ordered (input_dir : str) :
  Sorted name_le (documents input_dir) /\
  Permutation (map (mkPath input_dir) (glob_pdf input_dir))
              (documents input_dir).
Proof.
  unfold documents. split; [|apply sorted_perm].
  induction (map (mkPath input_dir) (glob_pdf input_dir)) as [|p l IH]; simpl.
  - constructor.
  - now apply insert_sorted_ordered.
Qed.

(** ** The batch *)

Lemma write_file_ok (path : str) (whole : list record -> artifact)
      (rows : list record) (st : state) :
  open_w path = None ->
  encodable rows = true ->
  write_file path whole rows st =
  (Ok tt, State (stdout st) (sent st) (written st ++ [(path, whole rows)])).
Proof.
  unfold write_file, encodable. intros ->.
  destruct (first_unencodable rows); [discriminate|reflexivity].
Qed.

Lemma encodable_first (rows : list record) :
  encodable rows = true -> first_unencodable rows = None.
Proof.
  unfold encodable. destruct (first_unencodable rows); [discriminate|auto].
Qed.

Lemma first_unencodable_none (rows : list record) :
  first_unencodable rows = None <->
  Forall (fun s => existsb is_surrogate s = false) (strings_of rows).
Proof.
  unfold first_unencodable. generalize (strings_of rows) as l.
  induction l as [|s l IH]; cbn [find].
  - split; auto.
  - destruct (existsb is_surrogate s) eqn:E.
    + split; [discriminate|]. intros H. inversion H; congruence.
    + rewrite IH. split; [intros H; constructor; auto|].
      intros H. now inversion H.
Qed.

Lemma encodable_strings (rows : list record) :
  encodable rows = true <->
  Forall (fun s => existsb is_surrogate s = false) (strings_of rows).
Proof.
  rewrite <- first_unencodable_none. unfold encodable.
  destruct (first_unencodable rows); split; congruence.
Qed.

(** Records without clause and summary can be written when, and only when,
    no identifier holds a surrogate. *)
Lemma encodable_empty_records (l : list Path) :
  encodable (map empty_record l) = true <->
  Forall (fun p => existsb is_surrogate (stem p) = false) l.
Proof.
  rewrite encodable_strings. induction l as [|p l IH].
  - split; constructor.
  - change (strings_of (map empty_record (p :: l)))
      with ([lit "contract_id"; stem p; lit "summary"; [];
             lit "termination"; []; lit "confidentiality"; [];
             lit "liability"; []] ++ strings_of (map empty_record l)).
    rewrite Forall_app, IH. split.
    + intros [H1 H2]. constructor; [|assumption].
      apply Forall_cons_iff in H1 as [_ H1].
      now apply Forall_cons_iff in H1 as [H1 _].
    + intros H. inversion H; subst. split; [|assumption].
      repeat (constructor; [first [assumption | vm_compute; reflexivity]|]).
      constructor.
Qed.

(** [main] after its loop, step by step. *)
Lemma main_unfold (input_dir out_json : str) (out_csv : option str)
      (st : state) :
  main input_dir out_json out_csv st =
  match main_loop (documents input_dir) [] st with
  | (Raise e, st1) => (Raise e, st1)
  | (Ok rows, st1) =>
      match open_w out_json with
      | Some e => (Raise e, st1)
      | None =>
          match first_unencodable rows with
          | Some s =>
              (Raise (encode_error s),
               State (stdout st1) (sent st1)
                     (written st1 ++ [(out_json, CutShort rows)]))
          | None =>
              let st2 := State (stdout st1) (sent st1)
                               (written st1 ++ [(out_json, JsonFile rows)]) in
              let finish st3 :=
                (Ok tt, State (stdout st3 ++ [done_line (length rows) out_json])
                              (sent st3) (written st3)) in
              match out_csv with
              | Some ((_ :: _) as p) =>
                  match open_w p with
                  | Some e => (Raise e, st2)
                  | None => finish (State (stdout st2) (sent st2)
                                          (written st2 ++ [(p, CsvFile rows)]))
                  end
              | _ => finish st2
              end
          end
      end
  end.
Proof.
  unfold main, bind. fold (documents input_dir).
  destruct (main_loop (documents input_dir) [] st) as [[rows|e] st1];
    [|reflexivity].
  unfold write_file at 1. destruct (open_w out_json); [reflexivity|].
  destruct (first_unencodable rows) eqn:Hu; [reflexivity|].
  cbv zeta. destruct out_csv as [[|c p]|]; try reflexivity.
  unfold write_file. rewrite Hu. destruct (open_w (c :: p)); reflexivity.
Qed.

(** The loop of [main] on the documents of a directory ends with the
    records [batch_rows] names. *)
Lemma main_loop_batch (input_dir : str) (st : state) :
  exists st1,
    main_loop (documents input_dir) [] st
    = (Ok (batch_rows input_dir st), st1) /\
    Forall2 record_of (filter readable (documents input_dir))
            (batch_rows input_dir st) /\
    written st1 = written st /\
    (forall p, In p (documents input_dir) -> readable p = false ->
       exists e, In (lit "Error processing " ++ name p ++ lit ": " ++ e)
                    (stdout st1)) /\
    (service_down ->
     batch_rows input_dir st
     = map empty_record (filter readable (documents input_dir))).
Proof.
  destruct (main_loop_runs (documents input_dir) [] st)
    as (rows & st1 & Hm & Hf & Hw & Hl & He & Hd).
  simpl app in Hm. unfold batch_rows. rewrite Hm. cbn [fst].
  exists st1. auto.
Qed.

(** What the loop printed is still there when [main] ends, however it
    ends. *)
Lemma main_reports (input_dir out_json : str) (out_csv : option str)
      (st : state) (p : Path) :
  In p (documents input_dir) -> readable p = false ->
  exists e, In (lit "Error processing " ++ name p ++ lit ": " ++ e)
               (stdout (snd (main input_dir out_json out_csv st))).
Proof.
  intros Hp Hr.
  destruct (main_loop_batch input_dir st) as (st1 & Hm & _ & _ & Herr & _).
  destruct (Herr p Hp Hr) as [e He]. exists e.
  rewrite main_unfold, Hm.
  destruct (open_w out_json); [exact He|].
  destruct (first_unencodable (batch_rows input_dir st)); [exact He|].
  cbv zeta. destruct out_csv as [[|c q]|];
    try (cbn [snd stdout]; apply in_or_app; now left).
  destruct (open_w (c :: q)); [exact He|].
  cbn [snd stdout]. apply in_or_app. now left.
Qed.

Lemma main_runs (input_dir out_json : str) (out_csv : option str) (st : state) :
  open_w out_json = None ->
  (forall p, out_csv = Some p -> open_w p = None) ->
  encodable (batch_rows input_dir st) = true ->
  exists st',
    main input_dir out_json out_csv st = (Ok tt, st') /\
    written st' = written st ++ outputs out_json out_csv
                                        (batch_rows input_dir st).
Proof.
  intros Hj Hc He. rewrite main_unfold.
  destruct (main_loop_batch input_dir st) as (st1 & Hm & _ & Hw & _).
  rewrite Hm, Hj, (encodable_first _ He). cbv zeta.
  unfold outputs. destruct out_csv as [[|c p]|].
  - eexists. split; [reflexivity|]. cbn [written]. now rewrite Hw.
  - rewrite (Hc _ eq_refl). eexists. split; [reflexivity|].
    cbn [written]. now rewrite Hw, <- app_assoc.
  - eexists. split; [reflexivity|]. cbn [written]. now rewrite Hw.
Qed.

(** C4 (amended): the documents are taken in the order of their file
    names, each once; a document that cannot be read adds no record and is
    reported, the others are still processed, so the loop of [main] ends
    with one complete record for each readable document, in that order,
    possibly fewer records than documents; and [main] returns, having
    written exactly these records to its output files, when the files can
    be opened and no string of the records holds a surrogate. *)
Theorem main_isolates_failures (input_dir out_json : str) (out_csv : option str)
        (st : state) :
  let rows := batch_rows input_dir st in
  Sorted name_le (documents input_dir) /\
  Permutation (map (mkPath input_dir) (glob_pdf input_dir))
              (documents input_dir) /\
  fst (main_loop (documents input_dir) [] st) = Ok rows /\
  Forall2 record_of (filter readable (documents input_dir)) rows /\
  length rows <= length (documents input_dir) /\
  (forall p, In p (documents input_dir) -> readable p = false ->
     exists e, In (lit "Error processing " ++ name p ++ lit ": " ++ e)
                  (stdout (snd (main input_dir out_json out_csv st)))) /\
  (open_w out_json = None ->
   (forall p, out_csv = Some p -> open_w p = None) ->
   encodable rows = true ->
   exists st',
     main input_dir out_json out_csv st = (Ok tt, st') /\
     written st' = written st ++ outputs out_json out_csv rows).
Proof.
  intros rows.
  split; [apply documents_ordered|]. split; [apply documents_ordered|].
  destruct (main_loop_batch input_dir st) as (st1 & Hm & Hf & _).
  split; [now rewrite Hm|]. split; [exact Hf|]. split.
  - unfold rows. rewrite <- (Forall2_length Hf). apply filter_length_le.
  - split; [intros p; apply main_reports|]. apply main_runs.
Qed.

(** C6 (amended): when every call to the service fails, each readable
    document still gets its record, with its identifier and the empty
    string under each of the four other keys, the five keys in their order,
    and these are the records the loop of [main] ends with; the batch
    completes and writes them when the output files can be opened and no
    identifier of a readable document holds a surrogate. *)
Theorem main_gateway_down (input_dir out_json : str) (out_csv : option str)
        (st : state) :
  service_down ->
  let rows := map empty_record (filter readable (documents input_dir)) in
  batch_rows input_dir st = rows /\
  (open_w out_json = None ->
   (forall p, out_csv = Some p -> open_w p = None) ->
   Forall (fun p => existsb is_surrogate (stem p) = false)
          (filter readable (documents input_dir)) ->
   exists st',
      main input_dir out_json out_csv st = (Ok tt, st') /\
      written st' = written st ++ outputs out_json out_csv rows) /\
  (forall p st0, readable p = true ->
      exists st1, process_contract p st0 = (Ok (empty_record p), st1)) /\
  (forall r, In r rows ->
      map fst r = record_keys /\
      (forall k, In k (tl record_keys) -> dict_get r k = Some (Some []))).
Proof.
  intros Hdown rows.
  assert (Hb : batch_rows input_dir st = rows).
  { destruct (main_loop_batch input_dir st) as (_ & _ & _ & _ & _ & Hd).
    exact (Hd Hdown). }
  split; [exact Hb|]. split; [|split].
  - intros Hj Hc He. apply encodable_empty_records in He.
    fold rows in He. rewrite <- Hb in He.
    destruct (@main_runs input_dir out_json out_csv st Hj Hc He)
      as (st' & Hm & Hw).
    exists st'. rewrite Hb in Hw. auto.
  - intros p st0 Hr.
    destruct (process_contract_readable p st0 Hr)
      as (s & t & c & l & st1 & Hp & _ & _ & Hd).
    destruct (Hd Hdown) as (-> & -> & -> & ->). now exists st1.
  - intros r Hr. unfold rows in Hr. apply in_map_iff in Hr as (p & <- & _).
    split; [reflexivity|].
    intros k [<-|[<-|[<-|[<-|[]]]]]; reflexivity.
Qed.

(* ================================================================== *)
(** * Further properties: reading a document *)

Lemma extract_pages_spec (pages : list (result (option str))) :
  forall parts st,
    extract_pages pages parts st =
    (match first_error pages with
     | Some e => Raise e
     | None => Ok (parts ++ map page_text pages)
     end, st).
Proof.
  induction pages as [|[[[|c t]|]|e] pages IH]; intros parts st;
    cbn [extract_pages first_error map page_text].
  - now rewrite app_nil_r.
  - rewrite IH. destruct (first_error pages); [reflexivity|].
    now rewrite <- app_assoc.
  - rewrite IH. destruct (first_error pages); [reflexivity|].
    now rewrite <- app_assoc.
  - rewrite IH. destruct (first_error pages); [reflexivity|].
    now rewrite <- app_assoc.
  - reflexivity.
Qed.

Lemma extract_text_from_pdf_spec (p : Path) (st : state) :
  extract_text_from_pdf p st = (document_text p, st).
Proof.
  unfold extract_text_from_pdf, document_text.
  destruct (pdfplumber_open p) as [pages|e]; [|reflexivity].
  unfold bind. rewrite extract_pages_spec.
  destruct (first_error pages); reflexivity.
Qed.

Lemma first_error_none (pages : list (result (option str))) :
  first_error pages = None <->
  forallb (fun page => match page with Ok _ => true | Raise _ => false end)
          pages = true.
Proof.
  induction pages as [|[t|e] pages IH]; cbn [first_error forallb andb].
  - split; reflexivity.
  - exact IH.
  - split; discriminate.
Qed.

Lemma first_error_found (good rest : list (result (option str))) (e : exc) :
  first_error good = None -> first_error (good ++ Raise e :: rest) = Some e.
Proof.
  induction good as [|[t|e'] good IH]; cbn [first_error app]; auto.
  discriminate.
Qed.

Lemma readable_document_text (p : Path) :
  readable p = true <-> exists raw, document_text p = Ok raw.
Proof.
  unfold readable, document_text.
  destruct (pdfplumber_open p) as [pages|e].
  - rewrite <- first_error_none. destruct (first_error pages).
    + split; [discriminate|]. intros [raw H]; discriminate.
    + split; eauto.
  - split; [discriminate|]. intros [raw H]; discriminate.
Qed.

(** X1: a document whose pages can all be read gives the texts of its pages
    joined by an empty line, a page without text counting as empty; nothing
    is printed, sent or written. *)
Theorem extract_text_from_pdf_joins (p : Path) (st : state)
        (pages : list (result (option str))) :
  pdfplumber_open p = Ok pages ->
  first_error pages = None ->
  extract_text_from_pdf p st = (Ok (join [LF; LF] (map page_text pages)), st).
Proof.
  intros Ho Hf. rewrite extract_text_from_pdf_spec. unfold document_text.
  now rewrite Ho, Hf.
Qed.

(** X2: a document that cannot be opened, or one of whose pages cannot be
    read, makes the extraction raise: the exception of the opening, or that
    of the first such page whatever comes after it. *)
Theorem extract_text_from_pdf_raises (p : Path) (st : state) (e : exc) :
  pdfplumber_open p = Raise e \/
  (exists good rest, pdfplumber_open p = Ok (good ++ Raise e :: rest) /\
                     first_error good = None) ->
  extract_text_from_pdf p st = (Raise e, st).
Proof.
  rewrite extract_text_from_pdf_spec. unfold document_text.
  intros [Ho|(good & rest & Ho & Hg)]; rewrite Ho; [reflexivity|].
  now rewrite first_error_found.
Qed.

(* ================================================================== *)
(** * Further properties: requests and records *)

Lemma strip_nil : strip [] = [].
Proof. reflexivity. Qed.

Lemma call_groq_trace (system_prompt user_prompt : str) (max_tokens : nat)
      (st : state) :
  exists out st',
    call_groq system_prompt user_prompt max_tokens st = (Ok out, st') /\
    sent st' = sent st ++ [groq_request system_prompt user_prompt max_tokens] /\
    written st' = written st /\
    strip out = out.
Proof.
  rewrite call_groq_unfold. cbv zeta.
  destruct (llm_service _ _) as [[|[content|] others]|e];
    eexists; eexists; (split; [reflexivity|]); cbn [sent written];
    (split; [reflexivity|]); (split; [reflexivity|]);
    apply strip_strip || apply strip_nil.
Qed.

Lemma extract_clause_unfold (full_text clause_type : str) :
  extract_clause full_text clause_type =
  call_groq CLAUSE_SYSTEM_PROMPT
    (clause_prompt (find_relevant_section full_text clause_type) clause_type)
    800.
Proof. reflexivity. Qed.

Lemma find_relevant_section_bound (text ct : str) :
  length (find_relevant_section text ct) <= 2000.
Proof.
  destruct (supported_dec (lower ct)) as [Hin|Hout].
  - destruct (supported_anchor Hin) as [kw H].
    rewrite (find_relevant_section_supported text ct H).
    apply patterns_anchor in H as [_ Hlen]. unfold locate_spec.
    destruct (find_ignorecase kw text); rewrite length_firstn; lia.
  - rewrite find_relevant_section_unsupported by assumption.
    rewrite length_firstn. lia.
Qed.

Lemma clause_prompt_length (window clause_type : str) :
  length (clause_prompt window clause_type)
  = 119 + length clause_type + length window.
Proof.
  unfold clause_prompt. rewrite !length_app. cbn. lia.
Qed.

Lemma summary_prompt_length (short : str) :
  length (summary_prompt short) = 111 + length short.
Proof.
  unfold summary_prompt. rewrite !length_app. cbn. lia.
Qed.

(** X3: the clause extractor never raises; it sends one request, with a
    ceiling of 800 tokens, whose prompt holds the clause type and a window of
    the text and is at most 2119 characters longer than the clause type,
    however long the text is. *)
Theorem extract_clause_request (full_text clause_type : str) (st : state) :
  exists out st' user_prompt,
    extract_clause full_text clause_type st = (Ok out, st') /\
    sent st' = sent st
               ++ [groq_request CLAUSE_SYSTEM_PROMPT user_prompt 800] /\
    user_prompt
    = clause_prompt (find_relevant_section full_text clause_type) clause_type /\
    length user_prompt <= 2119 + length clause_type.
Proof.
  rewrite extract_clause_unfold.
  destruct (call_groq_trace CLAUSE_SYSTEM_PROMPT
              (clause_prompt (find_relevant_section full_text clause_type)
                             clause_type) 800 st)
    as (out & st' & Hc & Hs & _).
  exists out, st', (clause_prompt (find_relevant_section full_text clause_type)
                                  clause_type).
  split; [assumption|]. split; [assumption|]. split; [reflexivity|].
  rewrite clause_prompt_length.
  pose proof (find_relevant_section_bound full_text clause_type). lia.
Qed.

(** What [process_contract] does with a document, by the outcome of its
    reading. *)
Lemma process_contract_trace (p : Path) (st : state) :
  match document_text p with
  | Raise e => process_contract p st = (Raise e, st)
  | Ok raw =>
      exists summary termination confidentiality liability st',
        process_contract p st =
        (Ok [ (lit "contract_id", Some (stem p));
              (lit "summary", Some summary);
              (lit "termination", Some termination);
              (lit "confidentiality", Some confidentiality);
              (lit "liability", Some liability) ], st') /\
        sent st' = sent st ++ requests_of p /\
        written st' = written st /\
        strip summary = summary /\ strip termination = termination /\
        strip confidentiality = confidentiality /\ strip liability = liability
  end.
Proof.
  unfold requests_of.
  destruct (document_text p) as [raw|e] eqn:Hd.
  - unfold process_contract.
    assert (Hraw : extract_text_from_pdf p st = (Ok raw, st))
      by (now rewrite extract_text_from_pdf_spec, Hd).
    rewrite (bind_ok _ _ _ Hraw).
    rewrite !extract_clause_unfold. unfold summarize_contract, slice_to.
    fold (summary_prompt (firstn 5000 (normalize_text raw))).
    set (full := normalize_text raw).
    match goal with |- context [bind (call_groq ?a ?b ?c) _ st] =>
      destruct (call_groq_trace a b c st) as (t & st1 & E1 & S1 & W1 & T1) end.
    rewrite (bind_ok _ _ _ E1).
    match goal with |- context [bind (call_groq ?a ?b ?c) _ st1] =>
      destruct (call_groq_trace a b c st1) as (c' & st2 & E2 & S2 & W2 & T2) end.
    rewrite (bind_ok _ _ _ E2).
    match goal with |- context [bind (call_groq ?a ?b ?c) _ st2] =>
      destruct (call_groq_trace a b c st2) as (l & st3 & E3 & S3 & W3 & T3) end.
    rewrite (bind_ok _ _ _ E3).
    match goal with |- context [bind (call_groq ?a ?b ?c) _ st3] =>
      destruct (call_groq_trace a b c st3) as (s & st4 & E4 & S4 & W4 & T4) end.
    rewrite (bind_ok _ _ _ E4).
    exists s, t, c', l, st4. split; [reflexivity|]. split.
    + rewrite S4, S3, S2, S1. rewrite <- !app_assoc. reflexivity.
    + split; [congruence|]. auto.
  - unfold process_contract.
    assert (Hraw : extract_text_from_pdf p st = (Raise e, st))
      by (now rewrite extract_text_from_pdf_spec, Hd).
    now rewrite (bind_raise _ _ _ Hraw).
Qed.

(** X4: for a document that can be read, [process_contract] makes four
    requests and no other: the termination, confidentiality and liability
    clauses in this order, then the summary, each on the normalised text. *)
Theorem process_contract_four_requests (p : Path) (st : state) (raw : str) :
  document_text p = Ok raw ->
  sent (snd (process_contract p st))
  = sent st
    ++ [ clause_request (normalize_text raw) (lit "termination");
         clause_request (normalize_text raw) (lit "confidentiality");
         clause_request (normalize_text raw) (lit "liability");
         summary_request (normalize_text raw) ] /\
  map max_tokens (requests_of p) = [800; 800; 800; 400].
Proof.
  intros Hd. pose proof (process_contract_trace p st) as H.
  unfold requests_of in *. rewrite Hd in *.
  destruct H as (s & t & c & l & st' & Hp & Hs & _).
  rewrite Hp. split; [exact Hs|reflexivity].
Qed.

(** X5: for a document that cannot be read, [process_contract] raises the
    exception of the reading before any request is made: the state is as it
    was. *)
Theorem process_contract_unread (p : Path) (st : state) (e : exc) :
  document_text p = Raise e -> process_contract p st = (Raise e, st).
Proof.
  intros Hd. pose proof (process_contract_trace p st) as H.
  now rewrite Hd in H.
Qed.

(** X6: every clause and the summary in a record are without white space at
    their two ends. *)
Theorem process_contract_values_trimmed (p : Path) (st st' : state)
        (r : record) :
  process_contract p st = (Ok r, st') ->
  forall k v, In k (tl record_keys) -> dict_get r k = Some (Some v) ->
              strip v = v.
Proof.
  intros Hp. pose proof (process_contract_trace p st) as H.
  destruct (document_text p) as [raw|e]; [|congruence].
  destruct H as (s & t & c & l & st1 & Hp' & _ & _ & Hs & Ht & Hc & Hl).
  rewrite Hp in Hp'. inversion Hp'; subst r st1.
  intros k v [<-|[<-|[<-|[<-|[]]]]] Hv; vm_compute in Hv;
    inversion Hv; subst; assumption.
Qed.

(* ================================================================== *)
(** * Further properties: the batch *)

Lemma requests_of_readable (p : Path) :
  length (requests_of p) = if readable p then 4 else 0.
Proof.
  unfold requests_of. destruct (readable p) eqn:Hr.
  - apply readable_document_text in Hr as [raw ->]. reflexivity.
  - destruct (document_text p) as [raw|e] eqn:Hd; [|reflexivity].
    assert (readable p = true) by (apply readable_document_text; eauto).
    congruence.
Qed.

Lemma requests_of_count (pdfs : list Path) :
  length (flat_map requests_of pdfs) = 4 * length (filter readable pdfs).
Proof.
  induction pdfs as [|p pdfs IH]; [reflexivity|].
  cbn [flat_map filter]. rewrite length_app, IH, requests_of_readable.
  destruct (readable p); simpl; lia.
Qed.

Lemma clause_request_bounded (full_text clause_type : str) :
  length clause_type <= 15 -> bounded_request (clause_request full_text clause_type).
Proof.
  intros Hl. unfold bounded_request, clause_request, groq_request.
  cbn [model temperature max_tokens messages].
  split; [reflexivity|]. split; [reflexivity|]. split; [lia|].
  eexists; eexists. split; [reflexivity|].
  rewrite clause_prompt_length.
  pose proof (find_relevant_section_bound full_text clause_type). lia.
Qed.

Lemma summary_request_bounded (full_text : str) :
  bounded_request (summary_request full_text).
Proof.
  unfold bounded_request, summary_request, groq_request.
  cbn [model temperature max_tokens messages].
  split; [reflexivity|]. split; [reflexivity|]. split; [lia|].
  eexists; eexists. split; [reflexivity|].
  rewrite summary_prompt_length, length_firstn. lia.
Qed.

Lemma requests_of_bounded (pdfs : list Path) :
  Forall bounded_request (flat_map requests_of pdfs).
Proof.
  induction pdfs as [|p pdfs IH]; [constructor|].
  cbn [flat_map]. apply Forall_app. split; [|assumption].
  unfold requests_of. destruct (document_text p) as [raw|e]; [|constructor].
  repeat constructor;
    try apply summary_request_bounded;
    apply clause_request_bounded; cbn; lia.
Qed.

(** The loop of [main]: its result, its requests and its records, by what
    the reading of each document gives. *)
Lemma main_loop_trace (pdfs : list Path) :
  forall rows st,
  exists new st',
    main_loop pdfs rows st = (Ok (rows ++ new), st') /\
    sent st' = sent st ++ flat_map requests_of pdfs /\
    written st' = written st /\
    map (fun r => dict_get r (lit "contract_id")) new
    = map (fun p => Some (Some (stem p))) (filter readable pdfs).
Proof.
  induction pdfs as [|p pdfs IH]; intros rows st.
  - exists [], st. rewrite !app_nil_r. auto.
  - cbn [main_loop filter flat_map].
    pose proof (process_contract_trace p st) as Hp.
    pose proof (requests_of_readable p) as Hn.
    destruct (document_text p) as [raw|e] eqn:Hd.
    + assert (Hr : readable p = true) by (apply readable_document_text; eauto).
      rewrite Hr in *.
      destruct Hp as (s & t & c & l & st1 & Hp & Hs & Hw & _).
      match type of Hp with _ = (Ok ?rec, _) => set (r := rec) in * end.
      assert (Hstep : try_except (bind (process_contract p)
                                       (fun r0 => ret (rows ++ [r0])))
                        (fun e => bind (print (lit "Error processing " ++ name p
                                               ++ lit ": " ++ e))
                                       (fun _ => ret rows)) st
                      = (Ok (rows ++ [r]), st1)).
      { unfold try_except. now rewrite (bind_ok _ _ _ Hp). }
      rewrite (bind_ok _ _ _ Hstep).
      destruct (IH (rows ++ [r]) st1) as (new & st' & Hm & Hs' & Hw' & Hid).
      exists (r :: new), st'. rewrite Hm, <- app_assoc.
      split; [reflexivity|]. split; [rewrite Hs', Hs, <- app_assoc; reflexivity|].
      split; [congruence|]. cbn [map]. now rewrite Hid.
    + assert (Hr : readable p = false).
      { destruct (readable p) eqn:E; auto.
        apply readable_document_text in E as [raw E]. congruence. }
      rewrite Hr in *.
      assert (Hq : requests_of p = [])
        by (destruct (requests_of p); [reflexivity|discriminate]).
      set (st1 := State (stdout st ++ [lit "Error processing " ++ name p
                                       ++ lit ": " ++ e])
                        (sent st) (written st)).
      assert (Hstep : try_except (bind (process_contract p)
                                       (fun r0 => ret (rows ++ [r0])))
                        (fun e => bind (print (lit "Error processing " ++ name p
                                               ++ lit ": " ++ e))
                                       (fun _ => ret rows)) st
                      = (Ok rows, st1)).
      { unfold try_except. now rewrite (bind_raise _ _ _ Hp). }
      rewrite (bind_ok _ _ _ Hstep).
      destruct (IH rows st1) as (new & st' & Hm & Hs' & Hw' & Hid).
      exists new, st'. rewrite Hq. auto.
Qed.

Lemma main_loop_trace_batch (input_dir : str) (st : state) :
  exists st1,
    main_loop (documents input_dir) [] st
    = (Ok (batch_rows input_dir st), st1) /\
    sent st1 = sent st ++ flat_map requests_of (documents input_dir) /\
    written st1 = written st /\
    map (fun r => dict_get r (lit "contract_id")) (batch_rows input_dir st)
    = map (fun p => Some (Some (stem p)))
          (filter readable (documents input_dir)).
Proof.
  destruct (main_loop_trace (documents input_dir) [] st)
    as (rows & st1 & Hm & Hs & Hw & Hid).
  simpl app in Hm. unfold batch_rows. rewrite Hm. cbn [fst].
  exists st1. auto.
Qed.

(** X8: whatever happens to the output files, the requests of a batch are
    those of its readable documents, four each, in the order of the file
    names; every one of them names the same model, has temperature 0, a
    ceiling of at most 800 tokens, a system and a user message, and a user
    message of at most 5200 characters. *)
Theorem main_requests (input_dir out_json : str) (out_csv : option str)
        (st : state) :
  sent (snd (main input_dir out_json out_csv st))
  = sent st ++ flat_map requests_of (documents input_dir) /\
  length (flat_map requests_of (documents input_dir))
  = 4 * length (filter readable (documents input_dir)) /\
  Forall bounded_request (flat_map requests_of (documents input_dir)).
Proof.
  split; [|split; [apply requests_of_count|apply requests_of_bounded]].
  rewrite main_unfold.
  destruct (main_loop_trace (documents input_dir) [] st)
    as (rows & st1 & Hm & Hs & _).
  rewrite Hm. destruct (open_w out_json); [exact Hs|].
  destruct (first_unencodable ([] ++ rows)); [exact Hs|].
  cbv zeta. destruct out_csv as [[|c p]|]; try exact Hs.
  destruct (open_w (c :: p)); exact Hs.
Qed.

(** X9: on a directory without PDF file the batch completes: it writes the
    empty list of records and reports 0 documents, and makes no request. *)
Theorem main_empty_directory (input_dir out_json : str) (out_csv : option str)
        (st : state) :
  glob_pdf input_dir = [] ->
  open_w out_json = None ->
  (forall p, out_csv = Some p -> open_w p = None) ->
  main input_dir out_json out_csv st
  = (Ok tt, State (stdout st ++ [done_line 0 out_json]) (sent st)
                  (written st ++ outputs out_json out_csv [])).
Proof.
  intros Hg Hj Hc. rewrite main_unfold. unfold documents. rewrite Hg.
  cbn [map sorted fold_right main_loop ret]. rewrite Hj.
  change (first_unencodable []) with (@None str). cbv beta iota zeta.
  unfold outputs. destruct out_csv as [[|c p]|]; try reflexivity.
  rewrite (Hc _ eq_refl). cbn [stdout sent written length].
  now rewrite <- app_assoc.
Qed.

(** X10: when the JSON file cannot be opened, [main] raises that exception
    after every document was processed and every request made; nothing is
    written, the CSV file neither. *)
Theorem main_json_unwritable (input_dir out_json : str) (out_csv : option str)
        (st : state) (e : exc) :
  open_w out_json = Some e ->
  exists st',
    main input_dir out_json out_csv st = (Raise e, st') /\
    written st' = written st /\
    sent st' = sent st ++ flat_map requests_of (documents input_dir).
Proof.
  intros Hj. rewrite main_unfold.
  destruct (main_loop_trace (documents input_dir) [] st)
    as (rows & st1 & Hm & Hs & Hw & _).
  rewrite Hm, Hj. eauto.
Qed.

(** X11: when only the CSV file cannot be opened, and no string of the
    records holds a surrogate, [main] raises that exception with the JSON
    file already written, one record per readable document. *)
Theorem main_csv_unwritable (input_dir out_json out_csv : str) (st : state)
        (e : exc) :
  open_w out_json = None ->
  out_csv <> [] ->
  open_w out_csv = Some e ->
  encodable (batch_rows input_dir st) = true ->
  exists rows st',
    rows = batch_rows input_dir st /\
    main input_dir out_json (Some out_csv) st = (Raise e, st') /\
    written st' = written st ++ [(out_json, JsonFile rows)] /\
    map (fun r => dict_get r (lit "contract_id")) rows
    = map (fun p => Some (Some (stem p))) (filter readable (documents input_dir)).
Proof.
  intros Hj Hne Hc He. rewrite main_unfold.
  destruct (main_loop_trace_batch input_dir st) as (st1 & Hm & Hs & Hw & Hid).
  rewrite Hm, Hj, (encodable_first _ He). cbv zeta.
  destruct out_csv as [|c p]; [congruence|].
  rewrite Hc. exists (batch_rows input_dir st). eexists.
  split; [reflexivity|]. split; [reflexivity|].
  cbn [written]. rewrite Hw. auto.
Qed.

(** X12: the last line a completed batch prints gives the number of records it
    wrote, which is the number of readable documents; the batch completes
    when the output files can be opened and no string of the records holds
    a surrogate. *)
Theorem main_done_line (input_dir out_json : str) (out_csv : option str)
        (st : state) :
  open_w out_json = None ->
  (forall p, out_csv = Some p -> open_w p = None) ->
  encodable (batch_rows input_dir st) = true ->
  exists rows st',
    rows = batch_rows input_dir st /\
    main input_dir out_json out_csv st = (Ok tt, st') /\
    written st' = written st ++ outputs out_json out_csv rows /\
    length rows = length (filter readable (documents input_dir)) /\
    last (stdout st') [] = done_line (length rows) out_json.
Proof.
  intros Hj Hc He. rewrite main_unfold.
  destruct (main_loop_trace_batch input_dir st) as (st1 & Hm & Hs & Hw & Hid).
  rewrite Hm, Hj, (encodable_first _ He). cbv zeta.
  exists (batch_rows input_dir st).
  assert (Hl : length (batch_rows input_dir st)
               = length (filter readable (documents input_dir))).
  { apply (f_equal (@length _)) in Hid. now rewrite !length_map in Hid. }
  unfold outputs. destruct out_csv as [[|c p]|].
  - eexists. split; [reflexivity|]. split; [reflexivity|].
    cbn [written stdout]. rewrite Hw, last_last. auto.
  - rewrite (Hc _ eq_refl). eexists. split; [reflexivity|].
    split; [reflexivity|].
    cbn [written stdout]. rewrite Hw, last_last, <- app_assoc. auto.
  - eexists. split; [reflexivity|]. split; [reflexivity|].
    cbn [written stdout]. rewrite Hw, last_last. auto.
Qed.

(** X20: when the JSON file can be opened but a string of the records holds
    a surrogate, [main] raises the error of the codec on the first such
    string, after every request was made: the JSON file is left cut short,
    no CSV file is written and the completion line is not printed, so the
    output still ends where the loop left it. *)
Theorem main_json_unencodable (input_dir out_json : str)
        (out_csv : option str) (st : state) (s : str) :
  open_w out_json = None ->
  first_unencodable (batch_rows input_dir st) = Some s ->
  exists st',
    main input_dir out_json out_csv st = (Raise (encode_error s), st') /\
    written st'
    = written st ++ [(out_json, CutShort (batch_rows input_dir st))] /\
    sent st' = sent st ++ flat_map requests_of (documents input_dir) /\
    stdout st' = stdout (snd (main_loop (documents input_dir) [] st)) /\
    existsb is_surrogate s = true.
Proof.
  intros Hj Hu. rewrite main_unfold.
  destruct (main_loop_trace_batch input_dir st) as (st1 & Hm & Hs & Hw & _).
  rewrite Hm, Hj, Hu. eexists. split; [reflexivity|].
  cbn [written sent stdout snd]. rewrite Hw.
  split; [reflexivity|]. split; [assumption|]. split; [reflexivity|].
  unfold first_unencodable in Hu. now apply find_some in Hu.
Qed.

(** ** Records that can be written *)

Lemma existsb_part (f : N -> bool) (a s b : str) :
  existsb f (a ++ s ++ b) = false -> existsb f s = false.
Proof.
  rewrite !existsb_app. intros H.
  apply orb_false_iff in H as [_ H]. now apply orb_false_iff in H as [H _].
Qed.

Lemma strip_clean (s : str) :
  existsb is_surrogate s = false -> existsb is_surrogate (strip s) = false.
Proof.
  destruct (strip_part s) as (a & b & H). intros Hs. rewrite H in Hs.
  exact (existsb_part _ _ _ _ Hs).
Qed.

Lemma stem_clean (p : Path) :
  existsb is_surrogate (name p) = false ->
  existsb is_surrogate (stem p) = false.
Proof.
  intros H. unfold stem. destruct (rfind 0x2E (name p)) as [i|]; [|exact H].
  destruct ((0 <? i) && (i <? length (name p) - 1)); [|exact H].
  rewrite <- (firstn_skipn i (name p)) in H.
  rewrite existsb_app in H. now apply orb_false_iff in H as [H _].
Qed.

Lemma call_groq_clean (system_prompt user_prompt : str) (max_tokens : nat)
      (st : state) :
  service_clean ->
  forall out st',
    call_groq system_prompt user_prompt max_tokens st = (Ok out, st') ->
    existsb is_surrogate out = false.
Proof.
  intros Hc out st'. rewrite call_groq_unfold. cbv zeta.
  destruct (llm_service _ _) as [[|[content|] others]|e] eqn:E;
    intros H; inversion H; subst; try reflexivity.
  apply strip_clean. exact (Hc _ _ _ _ E).
Qed.

Lemma process_contract_clean (p : Path) (st : state) :
  service_clean ->
  existsb is_surrogate (name p) = false ->
  forall r st', process_contract p st = (Ok r, st') ->
  Forall (fun s => existsb is_surrogate s = false) (strings_of [r]).
Proof.
  intros Hc Hn r st'.
  destruct (document_text p) as [raw|e] eqn:Hd.
  - unfold process_contract.
    assert (Hraw : extract_text_from_pdf p st = (Ok raw, st))
      by (now rewrite extract_text_from_pdf_spec, Hd).
    rewrite (bind_ok _ _ _ Hraw).
    rewrite !extract_clause_unfold. unfold summarize_contract, slice_to.
    set (full := normalize_text raw).
    match goal with |- context [bind (call_groq ?a ?b ?c) _ st] =>
      destruct (call_groq_trace a b c st) as (t & st1 & E1 & _);
      pose proof (call_groq_clean a b c st Hc E1) as C1 end.
    rewrite (bind_ok _ _ _ E1).
    match goal with |- context [bind (call_groq ?a ?b ?c) _ st1] =>
      destruct (call_groq_trace a b c st1) as (c' & st2 & E2 & _);
      pose proof (call_groq_clean a b c st1 Hc E2) as C2 end.
    rewrite (bind_ok _ _ _ E2).
    match goal with |- context [bind (call_groq ?a ?b ?c) _ st2] =>
      destruct (call_groq_trace a b c st2) as (l & st3 & E3 & _);
      pose proof (call_groq_clean a b c st2 Hc E3) as C3 end.
    rewrite (bind_ok _ _ _ E3).
    match goal with |- context [bind (call_groq ?a ?b ?c) _ st3] =>
      destruct (call_groq_trace a b c st3) as (s & st4 & E4 & _);
      pose proof (call_groq_clean a b c st3 Hc E4) as C4 end.
    rewrite (bind_ok _ _ _ E4).
    intros H. inversion H; subst r st'.
    change (Forall (fun s0 => existsb is_surrogate s0 = false)
              [lit "contract_id"; stem p; lit "summary"; s;
               lit "termination"; t; lit "confidentiality"; c';
               lit "liability"; l]).
    pose proof (stem_clean p Hn) as C0.
    repeat (constructor; [first [assumption | vm_compute; reflexivity]|]).
    constructor.
  - unfold process_contract.
    assert (Hraw : extract_text_from_pdf p st = (Raise e, st))
      by (now rewrite extract_text_from_pdf_spec, Hd).
    rewrite (bind_raise _ _ _ Hraw). discriminate.
Qed.

Lemma strings_of_app (a b : list record) :
  strings_of (a ++ b) = strings_of a ++ strings_of b.
Proof. unfold strings_of. apply flat_map_app. Qed.

Lemma main_loop_clean (pdfs : list Path) :
  service_clean ->
  (forall p, In p pdfs -> existsb is_surrogate (name p) = false) ->
  forall rows st out st',
    Forall (fun s => existsb is_surrogate s = false) (strings_of rows) ->
    main_loop pdfs rows st = (Ok out, st') ->
    Forall (fun s => existsb is_surrogate s = false) (strings_of out).
Proof.
  intros Hc. induction pdfs as [|p pdfs IH]; intros Hn rows st out st' Hrows.
  - cbn [main_loop ret]. intros H. inversion H; subst. exact Hrows.
  - cbn [main_loop]. unfold bind at 1. unfold try_except, bind at 1.
    destruct (process_contract p st) as [[r|e] st1] eqn:Hp.
    + cbn [ret]. apply IH; [intros q Hq; apply Hn; now right|].
      rewrite strings_of_app. apply Forall_app. split; [exact Hrows|].
      apply (process_contract_clean p st Hc (Hn p (or_introl eq_refl)) Hp).
    + cbn [print ret bind]. apply IH; [intros q Hq; apply Hn; now right|].
      exact Hrows.
Qed.

(** X21: when no file name of the directory and no answer of the service
    holds a surrogate, no string of the records of the batch does: the
    records can be written. *)
Theorem batch_rows_encodable (input_dir : str) (st : state) :
  (forall n, In n (glob_pdf input_dir) -> existsb is_surrogate n = false) ->
  service_clean ->
  encodable (batch_rows input_dir st) = true.
Proof.
  intros Hn Hc. apply encodable_strings.
  destruct (main_loop_batch input_dir st) as (st1 & Hm & _).
  apply (main_loop_clean (documents input_dir) Hc) with (rows := [])
    (st := st) (st' := st1); [|constructor|exact Hm].
  intros p Hp.
  apply (Permutation_in _ (Permutation_sym (proj2 (documents_ordered input_dir))))
    in Hp.
  apply in_map_iff in Hp as (n & <- & Hin). cbn [name]. now apply Hn.
Qed.

Lemma rfind_last (c : N) (a b : str) :
  ~ In c b -> rfind c (a ++ c :: b) = Some (length a).
Proof.
  intros Hb.
  assert (Hn : rfind c b = None).
  { induction b as [|x b IH]; [reflexivity|]. cbn [rfind].
    rewrite IH by (intros H; apply Hb; now right).
    destruct (N.eqb_spec x c); [|reflexivity].
    exfalso. apply Hb. now left. }
  induction a as [|x a IH]; cbn [app rfind length].
  - now rewrite Hn, N.eqb_refl.
  - now rewrite IH.
Qed.

Lemma stem_pdf (parent base : str) :
  base <> [] -> stem (mkPath parent (base ++ lit ".pdf")) = base.
Proof.
  intros Hne. unfold stem. cbn [name].
  change (lit ".pdf") with (0x2E%N :: lit "pdf").
  rewrite rfind_last.
  - assert (E : (0 <? length base)
                 && (length base <? length (base ++ 0x2E%N :: lit "pdf") - 1)
                 = true).
    { rewrite length_app. change (length (0x2E%N :: lit "pdf")) with 4.
      assert (0 < length base) by (destruct base; [congruence|simpl; lia]).
      apply andb_true_iff. split; apply Nat.ltb_lt; lia. }
    rewrite E, firstn_app, Nat.sub_diag, firstn_all. cbn [firstn].
    now rewrite app_nil_r.
  - cbn. intros [H|[H|[H|[]]]]; discriminate H.
Qed.

(** X7: the record of a readable file [base.pdf] has [base] as its
    [contract_id], dots inside [base] included. *)
Theorem process_contract_contract_id (parent base : str) (st : state) :
  base <> [] ->
  readable (mkPath parent (base ++ lit ".pdf")) = true ->
  exists r st',
    process_contract (mkPath parent (base ++ lit ".pdf")) st = (Ok r, st') /\
    dict_get r (lit "contract_id") = Some (Some base).
Proof.
  intros Hne Hr. apply readable_document_text in Hr as [raw Hd].
  pose proof (process_contract_trace (mkPath parent (base ++ lit ".pdf")) st)
    as H.
  rewrite Hd in H. destruct H as (s & t & c & l & st' & Hp & _).
  eexists; eexists. split; [exact Hp|].
  rewrite stem_pdf by assumption. reflexivity.
Qed.

(* ================================================================== *)
(** * Further properties: the normaliser *)

Lemma contains_part_false (w a s b : str) :
  contains w (a ++ s ++ b) = false -> contains w s = false.
Proof.
  intros H. apply contains_app_false in H as [_ H].
  now apply contains_app_false in H as [H _].
Qed.

Lemma footer_removal_keeps_out (x : N) (s : str) :
  contains [x] s = false ->
  contains [x] (re_sub re_page_footer [] s) = false.
Proof.
  rewrite !contains_single_Forall. intros H.
  apply scan_sub_Forall; [constructor|assumption].
Qed.

(** X13: whatever the text, the normalised text has no carriage return and no
    tab, and no white space at its two ends. *)
Theorem normalize_text_output (x : str) :
  contains [CR] (normalize_text x) = false /\
  contains [TAB] (normalize_text x) = false /\
  strip (normalize_text x) = normalize_text x.
Proof.
  rewrite normalize_text_unfold.
  destruct (before_footer_removal_clean x) as (Hcr & Htab & _).
  apply footer_removal_keeps_out in Hcr, Htab.
  destruct (strip_part (re_sub re_page_footer [] (before_footer_removal x)))
    as (a & b & Hab).
  rewrite Hab in Hcr, Htab.
  split; [now apply contains_part_false in Hcr|].
  split; [now apply contains_part_false in Htab|apply strip_strip].
Qed.

Lemma scan_sub_length (m : str -> option nat) (repl : str) :
  (forall s n, m s = Some n -> length repl <= n <= length s) ->
  forall s, length (scan_sub m repl 0 s) <= length s.
Proof.
  intros Hm s. remember (length s) as k eqn:Hk.
  assert (Hle : length s <= k) by lia. rewrite Hk. clear Hk.
  revert s Hle; induction k as [|k IH]; intros [|c s] Hle;
    try (simpl; lia); try (simpl in Hle; lia).
  simpl in Hle. rewrite scan_sub_cons. destruct (m (c :: s)) as [[|n]|] eqn:E.
  - cbn [length]. specialize (IH s ltac:(lia)). lia.
  - apply Hm in E. cbn [length] in *. rewrite length_app.
    specialize (IH (skipn n s) ltac:(rewrite length_skipn; lia)).
    rewrite length_skipn in IH. lia.
  - cbn [length]. specialize (IH s ltac:(lia)). lia.
Qed.

Lemma replace_length (old new s : str) :
  length new <= length old -> length (replace old new s) <= length s.
Proof.
  intros H. unfold replace. apply scan_sub_length. intros t n.
  destruct (startswith old t) eqn:E; try discriminate.
  intros Hn; inversion Hn; subst.
  apply startswith_prefix in E as [b ->]. rewrite length_app. lia.
Qed.

Lemma re_sub_single_length (p : N -> bool) (lo : nat) (repl s : str) :
  length repl <= lo -> length (re_sub [Item p lo None] repl s) <= length s.
Proof.
  intros H. unfold re_sub. apply scan_sub_length. intros t n.
  rewrite match_here_single.
  destruct (Nat.ltb_spec (run p t) lo); try discriminate.
  intros Hn; inversion Hn; subst. pose proof (run_le_length p t). lia.
Qed.

Lemma strip_length (s : str) : length (strip s) <= length s.
Proof.
  destruct (strip_part s) as (a & b & H).
  rewrite H at 2. rewrite !length_app. lia.
Qed.

(** X14: normalisation never makes a text longer. *)
Theorem normalize_text_length (x : str) :
  length (normalize_text x) <= length x.
Proof.
  rewrite normalize_text_unfold. unfold before_footer_removal.
  eapply Nat.le_trans; [apply strip_length|].
  eapply Nat.le_trans.
  { unfold re_sub. apply scan_sub_length. intros t n Hn.
    apply match_here_le_length in Hn. simpl. lia. }
  eapply Nat.le_trans; [apply re_sub_single_length; simpl; lia|].
  eapply Nat.le_trans; [apply re_sub_single_length; simpl; lia|].
  eapply Nat.le_trans; [apply replace_length; simpl; lia|].
  apply replace_length; simpl; lia.
Qed.

Lemma lstrip_all_space (s : str) : forallb isspace s = true -> lstrip s = [].
Proof.
  induction s as [|c s IH]; simpl; auto.
  intros H. apply andb_true_iff in H as [Hc Hs]. now rewrite Hc, IH.
Qed.

Lemma scan_sub_all_space (m : str -> option nat) (repl s : str) :
  forallb isspace repl = true -> forallb isspace s = true ->
  forallb isspace (scan_sub m repl 0 s) = true.
Proof.
  rewrite !forallb_forall. intros Hr Hs.
  apply Forall_forall. apply scan_sub_Forall; now apply Forall_forall.
Qed.

(** X15: a text of white space only, the empty text included, normalises to
    the empty text. *)
Theorem normalize_text_blank (x : str) :
  forallb isspace x = true -> normalize_text x = [].
Proof.
  intros H. rewrite normalize_text_unfold.
  unfold before_footer_removal, replace, re_sub, strip.
  rewrite lstrip_all_space; [reflexivity|].
  repeat (apply scan_sub_all_space; [reflexivity|]). exact H.
Qed.

(** X16: on a text without page footer the normalised text has, besides, no two
    spaces and no three newlines in a row. *)
Theorem normalize_text_canonical (x : str) :
  re_search re_page_footer x = None ->
  contains [SP; SP] (normalize_text x) = false /\
  contains [LF; LF; LF] (normalize_text x) = false /\
  re_search re_page_footer (normalize_text x) = None.
Proof.
  intros H. apply footer_before_removal in H.
  rewrite normalize_text_unfold, re_sub_id by assumption.
  destruct (before_footer_removal_clean x) as (_ & _ & Hsp & Hnl).
  destruct (strip_part (before_footer_removal x)) as (a & b & Hab).
  rewrite Hab in Hsp, Hnl, H.
  split; [now apply contains_part_false in Hsp|].
  split; [now apply contains_part_false in Hnl|].
  now apply re_search_none_part in H.
Qed.

Lemma solid_chars_app (a b : str) :
  solid_chars (a ++ b) = solid_chars a ++ solid_chars b.
Proof. apply filter_app. Qed.

Lemma solid_chars_all_space (s : str) :
  forallb isspace s = true -> solid_chars s = [].
Proof.
  induction s as [|c s IH]; simpl; auto.
  intros H. apply andb_true_iff in H as [Hc Hs]. rewrite Hc. simpl. auto.
Qed.

Lemma solid_chars_drop_space (s : str) :
  solid_chars (drop_space s) = solid_chars s.
Proof.
  destruct s as [|c s]; auto. simpl.
  destruct (isspace c) eqn:E; simpl; auto. now rewrite E.
Qed.

Lemma solid_chars_squeeze (s : str) : solid_chars (squeeze s) = solid_chars s.
Proof.
  induction s as [|c s IH]; auto. rewrite squeeze_cons.
  destruct (isspace c) eqn:E.
  - cbn [solid_chars filter]. rewrite E.
    replace (isspace SP) with true by reflexivity. cbn [negb].
    fold (solid_chars (drop_space (squeeze s))). fold (solid_chars s).
    now rewrite solid_chars_drop_space.
  - cbn [solid_chars filter]. rewrite E. cbn [negb].
    fold (solid_chars (squeeze s)). fold (solid_chars s). now rewrite IH.
Qed.

Lemma solid_chars_strip (s : str) : solid_chars (strip s) = solid_chars s.
Proof.
  destruct (strip_trimmed s) as (a & b & H & Ha & Hb & _).
  rewrite H at 2. rewrite !solid_chars_app.
  rewrite (solid_chars_all_space _ Ha), (solid_chars_all_space _ Hb).
  now rewrite app_nil_r.
Qed.

(** X17: on a text without page footer normalisation changes white space only:
    the other characters are all kept, in their order. *)
Theorem normalize_text_keeps_words (x : str) :
  re_search re_page_footer x = None ->
  solid_chars (normalize_text x) = solid_chars x.
Proof.
  intros H. apply footer_before_removal in H.
  rewrite normalize_text_unfold, re_sub_id by assumption.
  rewrite solid_chars_strip.
  rewrite <- (solid_chars_squeeze (before_footer_removal x)).
  rewrite squeeze_before_footer_removal. apply solid_chars_squeeze.
Qed.

(* ================================================================== *)
(** * Further properties: the locator *)

Lemma startswith_ignorecase_firstn (kw : str) :
  forall n t, length kw <= n ->
  startswith_ignorecase kw (firstn n t) = startswith_ignorecase kw t.
Proof.
  induction kw as [|p kw IH]; intros n t Hn; [reflexivity|].
  destruct n as [|n]; [simpl in Hn; lia|].
  destruct t as [|c t]; [reflexivity|].
  cbn [firstn startswith_ignorecase]. rewrite IH by (simpl in Hn; lia).
  reflexivity.
Qed.

Lemma startswith_ignorecase_app (kw a b : str) :
  startswith_ignorecase kw a = true ->
  startswith_ignorecase kw (a ++ b) = true.
Proof.
  revert a; induction kw as [|p kw IH]; intros [|c a]; simpl; auto;
    try discriminate.
  intros H. apply andb_true_iff in H as [H1 H2]. now rewrite H1, IH.
Qed.

Lemma find_ignorecase_head (kw s : str) :
  startswith_ignorecase kw s = true -> find_ignorecase kw s = Some 0.
Proof. intros H. destruct s; cbn [find_ignorecase]; now rewrite H. Qed.

Lemma find_ignorecase_none_skipn (kw s : str) :
  find_ignorecase kw s = None ->
  forall j, startswith_ignorecase kw (skipn j s) = false.
Proof.
  induction s as [|c s IH]; cbn [find_ignorecase].
  - destruct (startswith_ignorecase kw []) eqn:E; try discriminate.
    intros _ j. now rewrite skipn_nil.
  - destruct (startswith_ignorecase kw (c :: s)) eqn:E; try discriminate.
    destruct (find_ignorecase kw s) as [i|]; try discriminate.
    intros _ [|j]; [exact E|]. now apply (IH eq_refl).
Qed.

Lemma find_ignorecase_prefix_none (kw s : str) (n : nat) :
  find_ignorecase kw s = None -> find_ignorecase kw (firstn n s) = None.
Proof.
  intros H. destruct (find_ignorecase kw (firstn n s)) as [j|] eqn:E; auto.
  apply find_ignorecase_le in E as [_ E].
  apply startswith_ignorecase_app with (b := skipn (j - length (firstn n s))
                                                 (skipn n s)) in E.
  rewrite <- skipn_app, firstn_skipn in E.
  now rewrite (find_ignorecase_none_skipn _ _ H) in E.
Qed.

Lemma locate_spec_again (kw text : str) :
  locate_spec kw (locate_spec kw text) = locate_spec kw text.
Proof.
  destruct (find_ignorecase kw text) as [i|] eqn:E.
  - assert (Hw : locate_spec kw text
                 = firstn (length kw + 1800) (skipn i text))
      by (unfold locate_spec; now rewrite E).
    rewrite Hw. apply find_ignorecase_le in E as [_ E].
    unfold locate_spec.
    rewrite find_ignorecase_head
      by (rewrite startswith_ignorecase_firstn by lia; exact E).
    cbn [skipn]. apply firstn_firstn_same.
  - assert (Hw : locate_spec kw text = firstn 2000 text)
      by (unfold locate_spec; now rewrite E).
    rewrite Hw. unfold locate_spec.
    rewrite find_ignorecase_prefix_none by assumption.
    apply firstn_firstn_same.
Qed.

(** X19: the window of a window is the window: locating a clause type in what
    the locator returned for it returns the same text. *)
Theorem find_relevant_section_again (text ct : str) :
  find_relevant_section (find_relevant_section text ct) ct
  = find_relevant_section text ct.
Proof.
  destruct (supported_dec (lower ct)) as [Hin|Hout].
  - destruct (supported_anchor Hin) as [kw H].
    rewrite !(find_relevant_section_supported _ ct H).
    apply locate_spec_again.
  - rewrite !find_relevant_section_unsupported by assumption.
    apply firstn_firstn_same.
Qed.

(** X18: the convention of the line endings does not matter: a text and the
    text with its CR LF and CR turned into LF normalise to the same text. *)
Theorem normalize_text_line_endings (x : str) :
  normalize_text (replace [CR] [LF] (replace [CR; LF] [LF] x))
  = normalize_text x.
Proof.
  set (y := replace [CR] [LF] (replace [CR; LF] [LF] x)).
  assert (Hy : contains [CR] y = false)
    by (apply contains_single_Forall, replace_CR_gone).
  rewrite (normalize_text_unfold y). unfold before_footer_removal.
  rewrite (@replace_absent CR [LF] [LF] y Hy), (@replace_absent CR [] [LF] y Hy).
  reflexivity.
Qed.


End Program.

(* ================================================================== *)
(** * The properties at work *)

(** C1 at a text with blanks, blank lines and carriage returns but no page
    footer. *)
Lemma normalize_text_idempotent_witness :
  re_search re_page_footer
    ([SP; SP] ++ lit "a  b" ++ [CR; LF; CR; LF; CR; LF; TAB] ++ lit "c" ++ [TAB])
  = None /\
  normalize_text (normalize_text ([SP; SP] ++ lit "a  b"
                                  ++ [CR; LF; CR; LF; CR; LF; TAB] ++ lit "c" ++ [TAB]))
  = normalize_text ([SP; SP] ++ lit "a  b" ++ [CR; LF; CR; LF; CR; LF; TAB]
                    ++ lit "c" ++ [TAB]).
Proof.
  split; [vm_compute; reflexivity|].
  apply normalize_text_idempotent. vm_compute. reflexivity.
Defined.

(** C7 at a text that only needs trimming. *)
Lemma normalize_text_is_trim_witness :
  normalize_text ([SP] ++ lit "Term: 1 year" ++ [LF; LF] ++ lit "Fee" ++ [LF])
  = strip ([SP] ++ lit "Term: 1 year" ++ [LF; LF] ++ lit "Fee" ++ [LF]).
Proof.
  apply normalize_text_is_trim; vm_compute; reflexivity.
Defined.

(** C2 at the example document in capitals, the clause type capitalised. *)
Lemma find_relevant_section_locates_witness :
  In (lower ascii_only_lower (lit "Termination"), lit "termination") anchors /\
  spells (lit "termination") (lit "TERMINATION") /\
  find_relevant_section ascii_only_lower
    (lit "THIS AGREEMENT'S TERMINATION DATE IS FINAL.") (lit "Termination")
  = lit "TERMINATION DATE IS FINAL.".
Proof.
  assert (H : In (lower ascii_only_lower (lit "Termination"), lit "termination")
                 anchors) by (vm_compute; auto).
  split; [exact H|].
  destruct (find_relevant_section_locates ascii_only_lower
              (lit "THIS AGREEMENT'S TERMINATION DATE IS FINAL.")
              (lit "Termination") H) as (_ & _ & _ & _ & Hs & Ha).
  split; [apply Hs; vm_compute; reflexivity|].
  rewrite Ha by (vm_compute; reflexivity). vm_compute. reflexivity.
Defined.

(** C5 at the example document, the clause type in capitals. *)
Lemma find_relevant_section_length_witness :
  length (find_relevant_section ascii_only_lower agreement (lit "TERMINATION"))
  <= 1800 + length (lit "termination").
Proof.
  apply (proj2 (find_relevant_section_length ascii_only_lower agreement
                  (lit "TERMINATION")) (lit "termination")).
  - vm_compute; auto.
  - vm_compute. discriminate.
Defined.

(** C10 at a clause type the locator has no pattern for: the anchor word of
    another type in the text is not looked for. *)
Lemma find_relevant_section_other_type_witness :
  find_relevant_section ascii_only_lower agreement (lit "Indemnity")
  = firstn 2000 agreement.
Proof.
  apply (proj1 (find_relevant_section_other_type ascii_only_lower agreement
                  (lit "Indemnity"))).
  vm_compute. intros [H|[H|[H|[]]]]; discriminate H.
Defined.

(** C3 with the service down. *)
Lemma call_groq_fail_soft_witness :
  exists e,
    call_groq service_off (lit "system") (lit "user") 800 initial
    = (Ok [], State [lit "Groq Error: " ++ e]
                    [groq_request (lit "system") (lit "user") 800] []).
Proof.
  destruct (proj1 (proj2 (call_groq_fail_soft service_off (lit "system")
                            (lit "user") 800 initial)) eq_refl)
    as (e & He & _).
  exists e. exact He.
Defined.

(** C4 on the directory of three files. *)
Lemma main_isolates_failures_witness :
  Sorted name_le (documents three_files (lit "in")) /\
  exists st',
    main ascii_only_lower service_up open_three three_files all_writable
         surrogates_refused (lit "in") (lit "out.json") None initial
    = (Ok tt, st') /\
    written st'
    = outputs (lit "out.json") None
        (batch_rows ascii_only_lower service_up open_three three_files
                    (lit "in") initial).
Proof.
  destruct (@main_isolates_failures ascii_only_lower service_up open_three
              three_files all_writable surrogates_refused
              (lit "in") (lit "out.json") None initial)
    as (Hs & _ & _ & _ & _ & _ & Hw).
  split; [exact Hs|].
  apply Hw; [reflexivity|intros p H; discriminate H|vm_compute; reflexivity].
Defined.

(** C4 (as stated, refuted): on a directory with a file whose name is not
    valid UTF-8, [a.pdf] and that file are processed and [b.pdf] is
    skipped, but [main] raises while it writes the second record and leaves
    the JSON file cut short: the output does not hold one record for each
    document processed. *)
Lemma main_output_cut_short :
  filter (readable open_three) (documents odd_files (lit "in"))
  = [mkPath (lit "in") (lit "a.pdf");
     mkPath (lit "in") ([0xDC80%N] ++ lit ".pdf")] /\
  fst (main ascii_only_lower service_up open_three odd_files all_writable
            surrogates_refused (lit "in") (lit "out.json") None initial)
  = Raise (surrogates_refused [0xDC80%N]) /\
  written (snd (main ascii_only_lower service_up open_three odd_files
                     all_writable surrogates_refused
                     (lit "in") (lit "out.json") None initial))
  = [(lit "out.json",
      CutShort (batch_rows ascii_only_lower service_up open_three odd_files
                           (lit "in") initial))] /\
  map (fun r => dict_get r (lit "contract_id"))
      (batch_rows ascii_only_lower service_up open_three odd_files
                  (lit "in") initial)
  = [Some (Some (lit "a")); Some (Some [0xDC80%N])].
Proof. vm_compute. repeat split. Qed.

(** C6 on the directory of three files, the service down. *)
Lemma main_gateway_down_witness :
  exists st',
    main ascii_only_lower service_off open_three three_files all_writable
         surrogates_refused
         (lit "in") (lit "out.json") (Some (lit "out.csv")) initial = (Ok tt, st') /\
    written st'
    = written initial
      ++ outputs (lit "out.json") (Some (lit "out.csv"))
           (map empty_record (filter (readable open_three)
                                     (documents three_files (lit "in")))).
Proof.
  apply (proj1 (proj2 (@main_gateway_down ascii_only_lower service_off
                  open_three three_files all_writable surrogates_refused
                  (lit "in") (lit "out.json")
                  (Some (lit "out.csv")) initial (fun _ _ => eq_refl)))).
  - reflexivity.
  - intros p H. reflexivity.
  - vm_compute. repeat constructor.
Defined.

(** C6 (as stated, refuted): with the service down, on a directory with a
    file whose name is not valid UTF-8, [main] raises while it writes the
    identifier of that file: the JSON file is cut short and no CSV file is
    written, so the batch does not complete. *)
Lemma main_gateway_down_cut_short :
  service_down service_off /\
  fst (main ascii_only_lower service_off open_three odd_files all_writable
            surrogates_refused (lit "in") (lit "out.json")
            (Some (lit "out.csv")) initial)
  = Raise (surrogates_refused [0xDC80%N]) /\
  written (snd (main ascii_only_lower service_off open_three odd_files
                     all_writable surrogates_refused (lit "in")
                     (lit "out.json") (Some (lit "out.csv")) initial))
  = [(lit "out.json",
      CutShort [empty_record (mkPath (lit "in") (lit "a.pdf"));
                empty_record (mkPath (lit "in") ([0xDC80%N] ++ lit ".pdf"))])].
Proof.
  split; [intros history req; reflexivity|]. vm_compute. split; reflexivity.
Qed.

(** The batch of the three files, run: two records, for [a.pdf] and [c.pdf]
    in this order, and one line for [b.pdf]. *)
Example main_three_files :
  let '(res, st') :=
    main ascii_only_lower service_up open_three three_files all_writable
         surrogates_refused (lit "in") (lit "out.json") None initial in
  res = Ok tt /\
  map (fun kv => (fst kv, map (fun r => dict_get r (lit "contract_id"))
                              match snd kv with
                              | JsonFile rows | CsvFile rows => rows
                              | CutShort _ => []
                              end))
      (written st')
  = [(lit "out.json", [Some (Some (lit "a")); Some (Some (lit "c"))])] /\
  length (sent st') = 8 /\
  In (lit "Error processing b.pdf: No /Root object!") (stdout st').
Proof. vm_compute. repeat split; auto. Qed.

(** The same with the service down: the records are there, with empty
    strings. *)
Example main_three_files_service_off :
  written (snd (main ascii_only_lower service_off open_three three_files
                     all_writable surrogates_refused
                     (lit "in") (lit "out.json") None initial))
  = [(lit "out.json",
      JsonFile [empty_record (mkPath (lit "in") (lit "a.pdf"));
                empty_record (mkPath (lit "in") (lit "c.pdf"))])].
Proof. vm_compute. reflexivity. Qed.

(** The window of the example document. *)
Example find_relevant_section_agreement :
  find_relevant_section ascii_only_lower agreement (lit "termination")
  = lit "termination date is final.".
Proof. vm_compute. reflexivity. Qed.

(* ================================================================== *)
(** * The further properties at work *)

(** A document of two pages, the second without text. *)
Lemma extract_text_from_pdf_joins_witness :
  extract_text_from_pdf open_three (mkPath (lit "in") (lit "a.pdf")) initial
  = (Ok (agreement ++ [LF; LF]), initial).
Proof.
  exact (@extract_text_from_pdf_joins open_three
           (mkPath (lit "in") (lit "a.pdf")) initial
           [Ok (Some agreement); Ok None] eq_refl eq_refl).
Defined.

(** A file that cannot be opened, and a document with a torn page. *)
Lemma extract_text_from_pdf_raises_witness :
  extract_text_from_pdf open_three (mkPath (lit "in") (lit "b.pdf")) initial
  = (Raise (lit "No /Root object!"), initial) /\
  extract_text_from_pdf open_torn (mkPath (lit "in") (lit "t.pdf")) initial
  = (Raise (lit "bad xref"), initial).
Proof.
  split.
  - apply extract_text_from_pdf_raises. left. reflexivity.
  - apply extract_text_from_pdf_raises. right.
    exists [Ok (Some (lit "Page one"))], [Ok (Some (lit "Page three"))].
    split; reflexivity.
Defined.

Lemma process_contract_four_requests_witness :
  map max_tokens
      (sent (snd (process_contract ascii_only_lower service_up open_three
                    (mkPath (lit "in") (lit "a.pdf")) initial)))
  = [800; 800; 800; 400].
Proof.
  destruct (@process_contract_four_requests ascii_only_lower service_up
              open_three (mkPath (lit "in") (lit "a.pdf")) initial
              (agreement ++ [LF; LF]) eq_refl) as [H _].
  rewrite H. reflexivity.
Defined.

Lemma process_contract_unread_witness :
  process_contract ascii_only_lower service_up open_three
    (mkPath (lit "in") (lit "b.pdf")) initial
  = (Raise (lit "No /Root object!"), initial).
Proof.
  apply process_contract_unread. reflexivity.
Defined.

Lemma process_contract_values_trimmed_witness :
  strip (lit "Either party may terminate.") = lit "Either party may terminate.".
Proof.
  apply (@process_contract_values_trimmed ascii_only_lower service_up
           open_three (mkPath (lit "in") (lit "a.pdf")) initial
           (snd (process_contract ascii_only_lower service_up open_three
                   (mkPath (lit "in") (lit "a.pdf")) initial))
           [ (lit "contract_id", Some (lit "a"));
             (lit "summary", Some (lit "Either party may terminate."));
             (lit "termination", Some (lit "Either party may terminate."));
             (lit "confidentiality", Some (lit "Either party may terminate."));
             (lit "liability", Some (lit "Either party may terminate.")) ]
           ltac:(vm_compute; reflexivity) (lit "termination")).
  - right. left. reflexivity.
  - vm_compute. reflexivity.
Defined.

Lemma main_empty_directory_witness :
  main ascii_only_lower service_up open_three no_files all_writable
       surrogates_refused (lit "in") (lit "out.json") None initial
  = (Ok tt, State [done_line 0 (lit "out.json")] []
                  [(lit "out.json", JsonFile [])]).
Proof.
  apply (@main_empty_directory ascii_only_lower service_up open_three no_files
           all_writable surrogates_refused
           (lit "in") (lit "out.json") None initial);
    [reflexivity|reflexivity|intros p H; discriminate H].
Defined.

Lemma main_json_unwritable_witness :
  exists st',
    main ascii_only_lower service_up open_three three_files json_locked
         surrogates_refused
         (lit "in") (lit "out.json") (Some (lit "out.csv")) initial
    = (Raise (lit "Permission denied"), st') /\
    written st' = [] /\
    sent st' = flat_map (requests_of ascii_only_lower open_three)
                        (documents three_files (lit "in")).
Proof.
  apply (@main_json_unwritable ascii_only_lower service_up open_three
           three_files json_locked surrogates_refused
           (lit "in") (lit "out.json")
           (Some (lit "out.csv")) initial).
  reflexivity.
Defined.

Lemma main_csv_unwritable_witness :
  exists rows st',
    main ascii_only_lower service_up open_three three_files csv_locked
         surrogates_refused
         (lit "in") (lit "out.json") (Some (lit "out.csv")) initial
    = (Raise (lit "Permission denied"), st') /\
    written st' = [(lit "out.json", JsonFile rows)] /\
    map (fun r => dict_get r (lit "contract_id")) rows
    = map (fun p => Some (Some (stem p)))
          (filter (readable open_three) (documents three_files (lit "in"))).
Proof.
  destruct (@main_csv_unwritable ascii_only_lower service_up open_three
              three_files csv_locked surrogates_refused
              (lit "in") (lit "out.json") (lit "out.csv") initial
              (lit "Permission denied") eq_refl
              ltac:(discriminate) eq_refl ltac:(vm_compute; reflexivity))
    as (rows & st' & _ & H).
  exists rows, st'. exact H.
Defined.

Lemma main_done_line_witness :
  exists rows st',
    main ascii_only_lower service_up open_three three_files all_writable
         surrogates_refused (lit "in") (lit "out.json") None initial
    = (Ok tt, st') /\
    written st' = written initial ++ outputs (lit "out.json") None rows /\
    length rows
    = length (filter (readable open_three) (documents three_files (lit "in"))) /\
    last (stdout st') [] = done_line (length rows) (lit "out.json").
Proof.
  destruct (@main_done_line ascii_only_lower service_up open_three
              three_files all_writable surrogates_refused
              (lit "in") (lit "out.json") None initial
              eq_refl (fun p H => match H with eq_refl => I end)
              ltac:(vm_compute; reflexivity))
    as (rows & st' & _ & H).
  exists rows, st'. exact H.
Defined.

(** A directory with a file whose name is not valid UTF-8: the name reaches
    the program with a surrogate in it, and so does the identifier of the
    record. *)
Lemma main_json_unencodable_witness :
  exists st',
    main ascii_only_lower service_up open_three odd_files all_writable
         surrogates_refused (lit "in") (lit "out.json")
         (Some (lit "out.csv")) initial
    = (Raise (surrogates_refused [0xDC80%N]), st') /\
    map fst (written st') = [lit "out.json"] /\
    length (sent st') = 8.
Proof.
  destruct (@main_json_unencodable ascii_only_lower service_up open_three
              odd_files all_writable surrogates_refused
              (lit "in") (lit "out.json") (Some (lit "out.csv")) initial
              [0xDC80%N] eq_refl ltac:(vm_compute; reflexivity))
    as (st' & Hm & Hw & Hs & _).
  exists st'. split; [exact Hm|]. rewrite Hw, Hs. split; reflexivity.
Defined.

(** The directory of three files and the service of the examples. *)
Lemma batch_rows_encodable_witness :
  encodable (batch_rows ascii_only_lower service_up open_three three_files
                        (lit "in") initial) = true.
Proof.
  apply batch_rows_encodable.
  - intros n [<-|[<-|[<-|[]]]]; reflexivity.
  - intros history req content others H. inversion H. reflexivity.
Defined.

(** A name with a dot inside. *)
Lemma process_contract_contract_id_witness :
  exists r st',
    process_contract ascii_only_lower service_up open_three
      (mkPath (lit "in") (lit "nda.v2" ++ lit ".pdf")) initial = (Ok r, st') /\
    dict_get r (lit "contract_id") = Some (Some (lit "nda.v2")).
Proof.
  apply process_contract_contract_id; [discriminate|reflexivity].
Defined.

Lemma normalize_text_blank_witness :
  normalize_text [SP; CR; LF; TAB; 0xA0%N; LF; LF; LF; 0x3000%N] = [].
Proof. apply normalize_text_blank. reflexivity. Defined.

Lemma normalize_text_canonical_witness :
  contains [SP; SP] (normalize_text ([SP; SP] ++ lit "a  b" ++ [LF; LF; LF; LF]
                                     ++ lit "c")) = false /\
  contains [LF; LF; LF] (normalize_text ([SP; SP] ++ lit "a  b"
                                         ++ [LF; LF; LF; LF] ++ lit "c")) = false /\
  re_search re_page_footer (normalize_text ([SP; SP] ++ lit "a  b"
                                            ++ [LF; LF; LF; LF] ++ lit "c")) = None.
Proof. apply normalize_text_canonical. vm_compute. reflexivity. Defined.

Lemma normalize_text_keeps_words_witness :
  solid_chars (normalize_text (lit "Term:  1 year" ++ [CR; LF; TAB] ++ lit "Fee"))
  = lit "Term:1yearFee".
Proof.
  rewrite normalize_text_keeps_words; vm_compute; reflexivity.
Defined.
